(** * The call page of the WebRTC front end (src/app/page.tsx)

    A shallow embedding of the [Home] component: its React state, its two
    refs ([ws], [pc]), the handlers it installs on the signaling socket and
    on the peer connection, and the hang-up path.

    Conventions of the embedding.

    - The browser objects the component drives (RTCPeerConnection,
      WebSocket, MediaStream tracks) are kept in a store; a ref holds a
      handle into it.  Every call the component makes on them, every React
      setter it invokes and every console / alert output is recorded, in
      program order, as an [Effect].
    - Whether an awaited browser call resolves or rejects is not decided by
      the component; it is supplied per event by an [Oracle], and every
      theorem quantifies over it.  The constructors [RTCSessionDescription]
      and [RTCIceCandidate] sit inside the same [try] as the call they feed
      and count as part of that call.
    - A handler is a function of the render it was created in: the values
      of [roomId] and [localStream] it reads are the ones captured by that
      render ([Closure]), while the refs are read from the store.
    - A handler runs to completion before the next event (section 5 of the
      specification), so an [async] handler is one state transformer.  In
      particular Join is disabled in the step of the click, so a session
      has one socket at a time.
    - A send is recorded as the call [ws.current.send]; what the socket
      then does with the data (deliver it, discard it when closed, refuse
      it while still connecting) is the browser's and is not modelled. *)

From stdpp Require Import base option list strings gmap.

Open Scope string_scope.
Open Scope list_scope.

(** ** Data *)

Module Data.

(** A media track is known by its id; a stream is the list of its tracks
    ([getTracks]). *)
Record MediaStream := mkStream { ms_id : nat; ms_tracks : list nat }.

(** [RTCSessionDescriptionInit]: the role tag and the opaque text. *)
Inductive SdpType := SdpOffer | SdpAnswer.

Record SessionDescription := mkDesc { sd_type : SdpType; sd_sdp : string }.

(** [RTCIceCandidateInit], opaque. *)
Record Candidate := mkCand { cand_text : string }.

(** What a handler captured from the render that created it. *)
Record Closure := mkClosure {
  cl_roomId : string;
  cl_localStream : option MediaStream }.

(** The RTCPeerConnection objects, as far as the component acts on them.
    [pc_roomId] is the [currentRoomId] captured by [onicecandidate]. *)
Record PeerConnection := mkPc {
  pc_closed : bool;
  pc_roomId : string;
  pc_tracks : list nat;
  pc_localDescription : option SessionDescription;
  pc_remoteDescription : option SessionDescription;
  pc_candidates : list Candidate }.

(** The WebSocket object: whether [close] was called on it, and the
    render whose [onopen] / [onmessage] it carries. *)
Record WebSocket := mkWs { ws_closed : bool; ws_closure : Closure }.

(** The payload object handed to [sendMessage]. *)
Inductive Payload :=
| PJoin (id : string)
| PDescription (id : string) (sdp : option SessionDescription)
| PCandidate (id : string) (candidate : Candidate).

(** [JSON.stringify({ type, payload })] as passed to [ws.current.send]. *)
Record Envelope := mkEnv { env_type : string; env_payload : Payload }.

(** The inbound [WebSocketMessage]; every payload field is optional. *)
Record InPayload := mkIn {
  in_id : option string;
  in_sdp : option string;
  in_candidate : option Candidate;
  in_message : option string }.

Record WebSocketMessage := mkMsg {
  msg_type : string;
  msg_payload : option InPayload }.

(** What [JSON.parse(message.data)] makes of a frame: it throws on text
    that is not JSON, it yields [null] on the text "null" (reading [.type]
    of it throws), and otherwise it yields a value that the component casts
    to [WebSocketMessage].  A value without a [type] goes through the
    [switch] like one whose type matches no [case]. *)
Inductive Frame :=
| Malformed
| JsonNull
| Decoded (m : WebSocketMessage).

Inductive JsError := SyntaxError | TypeError | Rejected.

(** Everything observable the component does, in program order. *)
Inductive Effect :=
| Alert (s : string)
| ConsoleLog (s : string)
| ConsoleError (s : string)
| GetUserMedia
| WsNew (url : string)
| WsSend (e : Envelope)
| WsClose
| PcNew (h : nat)
| PcClose (h : nat)
| PcAddTrack (h : nat) (t : nat)
| PcCreateOffer (h : nat)
| PcCreateAnswer (h : nat)
| PcSetLocalDescription (h : nat) (d : SessionDescription)
| PcSetRemoteDescription (h : nat) (d : SessionDescription)
| PcAddIceCandidate (h : nat) (c : Candidate)
| TrackStop (t : nat)
| SetInCall (b : bool)
| SetLocalStream (s : option MediaStream)
| SetRemoteStream (s : option MediaStream)
| SetRoomId (s : string)
| Uncaught (e : JsError).

(** The component instance: React state, refs, and the browser objects
    the refs can reach. *)
Record World := mkWorld {
  roomId : string;
  inCall : bool;
  localStream : option MediaStream;
  remoteStream : option MediaStream;
  ws_current : option WebSocket;
  pc_current : option nat;
  pcs : list PeerConnection;
  stopped : gset nat }.

(** The outcome of the awaited browser calls of one event. *)
Record Oracle := mkOracle {
  o_getUserMedia : option MediaStream;
  o_createOffer : option string;
  o_createAnswer : option string;
  o_setLocalDescription : bool;
  o_setRemoteDescription : bool;
  o_addIceCandidate : bool }.

End Data.
Export Data.

(** ** Field updates *)

Definition set_roomId (s : string) (w : World) : World :=
  mkWorld s (inCall w) (localStream w) (remoteStream w)
          (ws_current w) (pc_current w) (pcs w) (stopped w).
Definition set_inCall (b : bool) (w : World) : World :=
  mkWorld (roomId w) b (localStream w) (remoteStream w)
          (ws_current w) (pc_current w) (pcs w) (stopped w).
Definition set_localStream (s : option MediaStream) (w : World) : World :=
  mkWorld (roomId w) (inCall w) s (remoteStream w)
          (ws_current w) (pc_current w) (pcs w) (stopped w).
Definition set_remoteStream (s : option MediaStream) (w : World) : World :=
  mkWorld (roomId w) (inCall w) (localStream w) s
          (ws_current w) (pc_current w) (pcs w) (stopped w).
Definition set_ws_current (s : option WebSocket) (w : World) : World :=
  mkWorld (roomId w) (inCall w) (localStream w) (remoteStream w)
          s (pc_current w) (pcs w) (stopped w).
Definition set_pc_current (h : option nat) (w : World) : World :=
  mkWorld (roomId w) (inCall w) (localStream w) (remoteStream w)
          (ws_current w) h (pcs w) (stopped w).
Definition set_pcs (l : list PeerConnection) (w : World) : World :=
  mkWorld (roomId w) (inCall w) (localStream w) (remoteStream w)
          (ws_current w) (pc_current w) l (stopped w).
Definition set_stopped (s : gset nat) (w : World) : World :=
  mkWorld (roomId w) (inCall w) (localStream w) (remoteStream w)
          (ws_current w) (pc_current w) (pcs w) s.

Definition pc_close (p : PeerConnection) : PeerConnection :=
  mkPc true (pc_roomId p) (pc_tracks p) (pc_localDescription p)
       (pc_remoteDescription p) (pc_candidates p).
Definition pc_add_track (t : nat) (p : PeerConnection) : PeerConnection :=
  mkPc (pc_closed p) (pc_roomId p) (pc_tracks p ++ [t]) (pc_localDescription p)
       (pc_remoteDescription p) (pc_candidates p).
Definition pc_set_local (d : SessionDescription) (p : PeerConnection) : PeerConnection :=
  mkPc (pc_closed p) (pc_roomId p) (pc_tracks p) (Some d)
       (pc_remoteDescription p) (pc_candidates p).
Definition pc_set_remote (d : SessionDescription) (p : PeerConnection) : PeerConnection :=
  mkPc (pc_closed p) (pc_roomId p) (pc_tracks p) (pc_localDescription p)
       (Some d) (pc_candidates p).
Definition pc_add_candidate (c : Candidate) (p : PeerConnection) : PeerConnection :=
  mkPc (pc_closed p) (pc_roomId p) (pc_tracks p) (pc_localDescription p)
       (pc_remoteDescription p) (pc_candidates p ++ [c]).

(** [new RTCPeerConnection(configuration)] with [onicecandidate] closed
    over [currentRoomId]. *)
Definition pc_fresh (currentRoomId : string) : PeerConnection :=
  mkPc false currentRoomId [] None None [].

(** Apply [f] to the object behind handle [h]; a handle always comes from
    [pc.current], so it is in range whenever the component uses it. *)
Definition update_pc (h : nat) (f : PeerConnection → PeerConnection)
    (w : World) : World :=
  match pcs w !! h with
  | Some p => set_pcs (<[h := f p]> (pcs w)) w
  | None => w
  end.

(** ** The handler monad: state, recorded effects, exceptions *)

Inductive Completion (A : Type) :=
| Normal (a : A)
| Throw (e : JsError).
Arguments Normal {A} a.
Arguments Throw {A} e.

Record Outcome (A : Type) := mkOutcome {
  completion : Completion A;
  world : World;
  effects : list Effect }.
Arguments mkOutcome {A} _ _ _.
Arguments completion {A} _.
Arguments world {A} _.
Arguments effects {A} _.

Definition M (A : Type) : Type := World → Outcome A.

Definition ret {A} (a : A) : M A := λ w, mkOutcome (Normal a) w [].

(** Put the effects recorded so far in front of those of the rest. *)
Definition prepend {A} (es : list Effect) (r : Outcome A) : Outcome A :=
  mkOutcome (completion r) (world r) (es ++ effects r).

Definition bind {A B} (m : M A) (f : A → M B) : M B := λ w,
  match m w with
  | mkOutcome (Normal a) w1 es1 => prepend es1 (f a w1)
  | mkOutcome (Throw e) w1 es1 => mkOutcome (Throw e) w1 es1
  end.

(** [try { m } catch (error) { h error }] *)
Definition try_catch {A} (m : M A) (h : JsError → M A) : M A := λ w,
  match m w with
  | mkOutcome (Normal a) w1 es1 => mkOutcome (Normal a) w1 es1
  | mkOutcome (Throw e) w1 es1 => prepend es1 (h e w1)
  end.

Definition throw {A} (e : JsError) : M A := λ w, mkOutcome (Throw e) w [].
Definition emit (e : Effect) : M unit := λ w, mkOutcome (Normal tt) w [e].
Definition modify (f : World → World) : M unit := λ w, mkOutcome (Normal tt) (f w) [].
Definition gets {A} (f : World → A) : M A := λ w, mkOutcome (Normal (f w)) w [].

Declare Scope js_scope.
Delimit Scope js_scope with js.
Notation "x <- m ;; k" := (bind m (λ x, k))
  (at level 100, m at next level, right associativity) : js_scope.
Notation "m ;;; k" := (bind m (λ _, k))
  (at level 100, right associativity) : js_scope.
Open Scope js_scope.

(** [xs.forEach(x => f x)] *)
Fixpoint forEach {A} (f : A → M unit) (xs : list A) : M unit :=
  match xs with
  | [] => ret tt
  | x :: xs' => f x ;;; forEach f xs'
  end.

(** JavaScript truthiness of an optional string field: present and
    non-empty. *)
Definition truthy (s : option string) : bool :=
  match s with
  | Some s => negb (String.eqb s "")
  | None => false
  end.

(** ** React setters *)

Definition setRoomId (s : string) : M unit :=
  emit (SetRoomId s) ;;; modify (set_roomId s).
Definition setInCall (b : bool) : M unit :=
  emit (SetInCall b) ;;; modify (set_inCall b).
Definition setLocalStream (s : option MediaStream) : M unit :=
  emit (SetLocalStream s) ;;; modify (set_localStream s).
Definition setRemoteStream (s : option MediaStream) : M unit :=
  emit (SetRemoteStream s) ;;; modify (set_remoteStream s).

(** ** Calls on the refs *)

(** [ws.current?.close()] *)
Definition ws_current_close : M unit :=
  s <- gets ws_current ;;
  match s with
  | Some s => emit WsClose ;;; modify (set_ws_current (Some (mkWs true (ws_closure s))))
  | None => ret tt
  end.

(** [pc.current?.close()] *)
Definition pc_current_close : M unit :=
  cur <- gets pc_current ;;
  match cur with
  | Some h => emit (PcClose h) ;;; modify (update_pc h pc_close)
  | None => ret tt
  end.

(** [pc.current.localDescription] *)
Definition current_localDescription (w : World) : option SessionDescription :=
  match pc_current w with
  | Some h =>
      match pcs w !! h with
      | Some p => pc_localDescription p
      | None => None
      end
  | None => None
  end.

(** An awaited browser call that either resolves with a value or rejects. *)
Definition await {A} (r : option A) : M A :=
  match r with
  | Some a => ret a
  | None => throw Rejected
  end.

(** An awaited browser call without a value: on success it changes the
    object, on failure it rejects and leaves the object alone. *)
Definition await_apply (ok : bool) (h : nat)
    (f : PeerConnection → PeerConnection) : M unit :=
  if ok then modify (update_pc h f) else throw Rejected.

(** ** The component's functions, in source order *)

Definition sendMessage (type : string) (payload : Payload) : M unit :=
  s <- gets ws_current ;;
  match s with
  | Some _ => emit (WsSend (mkEnv type payload))
  | None => ret tt
  end.

(** [pc.current.onicecandidate], closed over [currentRoomId]. *)
Definition onicecandidate (currentRoomId : string)
    (candidate : option Candidate) : M unit :=
  match candidate with
  | Some c => sendMessage "candidate" (PCandidate currentRoomId c)
  | None => ret tt
  end.

(** [pc.current.ontrack]: [setRemoteStream(event.streams[0])]. *)
Definition ontrack (stream0 : option MediaStream) : M unit :=
  setRemoteStream stream0.

(** A fresh connection accepts each track of the stream once, so
    [addTrack] has no failing path here. *)
Definition addTrack_current (t : nat) : M unit :=
  cur <- gets pc_current ;;
  match cur with
  | Some h => emit (PcAddTrack h t) ;;; modify (update_pc h (pc_add_track t))
  | None => ret tt
  end.

Definition createPeerConnection (c : Closure) (currentRoomId : string) : M unit :=
  pc_current_close ;;;
  n <- gets (λ w, length (pcs w)) ;;
  emit (PcNew n) ;;;
  modify (λ w, set_pc_current (Some n) (set_pcs (pcs w ++ [pc_fresh currentRoomId]) w)) ;;;
  match cl_localStream c with
  | Some s => forEach addTrack_current (ms_tracks s)
  | None => ret tt
  end.

Definition signaling_url : string := "wss://webrtc-backend-demo.onrender.com".

Definition handleJoinRoom (c : Closure) (o : Oracle) : M unit :=
  if String.eqb (cl_roomId c) "" then
    emit (Alert "Please enter a Room ID.")
  else
    try_catch
      (emit GetUserMedia ;;;
       stream <- await (o_getUserMedia o) ;;
       setLocalStream (Some stream) ;;;
       setInCall true ;;;
       emit (WsNew signaling_url) ;;;
       modify (set_ws_current (Some (mkWs false c))))
      (λ _, emit (ConsoleError "Error accessing media devices.")).

(** [ws.current.onopen] *)
Definition onopen (c : Closure) : M unit :=
  emit (ConsoleLog "Connected to signaling server") ;;;
  sendMessage "join_room" (PJoin (cl_roomId c)).

Definition createOffer (c : Closure) (currentRoomId : string) (o : Oracle) : M unit :=
  emit (ConsoleLog "Creating offer...") ;;;
  createPeerConnection c currentRoomId ;;;
  cur <- gets pc_current ;;
  match cur with
  | None => ret tt
  | Some h =>
      try_catch
        (emit (PcCreateOffer h) ;;;
         sdp <- await (o_createOffer o) ;;
         emit (PcSetLocalDescription h (mkDesc SdpOffer sdp)) ;;;
         await_apply (o_setLocalDescription o) h (pc_set_local (mkDesc SdpOffer sdp)) ;;;
         ld <- gets current_localDescription ;;
         sendMessage "offer" (PDescription currentRoomId ld))
        (λ _, emit (ConsoleError "Error creating offer:"))
  end.

Definition handleOffer (c : Closure) (sdp : string) (currentRoomId : string)
    (o : Oracle) : M unit :=
  emit (ConsoleLog "Handling offer...") ;;;
  createPeerConnection c currentRoomId ;;;
  cur <- gets pc_current ;;
  match cur with
  | None => ret tt
  | Some h =>
      try_catch
        (emit (PcSetRemoteDescription h (mkDesc SdpOffer sdp)) ;;;
         await_apply (o_setRemoteDescription o) h (pc_set_remote (mkDesc SdpOffer sdp)) ;;;
         emit (PcCreateAnswer h) ;;;
         answer <- await (o_createAnswer o) ;;
         emit (PcSetLocalDescription h (mkDesc SdpAnswer answer)) ;;;
         await_apply (o_setLocalDescription o) h (pc_set_local (mkDesc SdpAnswer answer)) ;;;
         ld <- gets current_localDescription ;;
         sendMessage "answer" (PDescription currentRoomId ld))
        (λ _, emit (ConsoleError "Error handling offer:"))
  end.

Definition handleAnswer (sdp : string) (o : Oracle) : M unit :=
  emit (ConsoleLog "Handling answer...") ;;;
  cur <- gets pc_current ;;
  match cur with
  | None => ret tt
  | Some h =>
      try_catch
        (emit (PcSetRemoteDescription h (mkDesc SdpAnswer sdp)) ;;;
         await_apply (o_setRemoteDescription o) h (pc_set_remote (mkDesc SdpAnswer sdp)))
        (λ _, emit (ConsoleError "Error handling answer:"))
  end.

Definition handleCandidate (candidate : Candidate) (o : Oracle) : M unit :=
  cur <- gets pc_current ;;
  match cur with
  | None => ret tt
  | Some h =>
      try_catch
        (emit (PcAddIceCandidate h candidate) ;;;
         await_apply (o_addIceCandidate o) h (pc_add_candidate candidate))
        (λ _, emit (ConsoleError "Error adding received ice candidate"))
  end.

(** [track.stop()] *)
Definition track_stop (t : nat) : M unit :=
  emit (TrackStop t) ;;; modify (λ w, set_stopped ({[t]} ∪ stopped w) w).

Definition handleHangUp (c : Closure) : M unit :=
  match cl_localStream c with
  | Some s => forEach track_stop (ms_tracks s)
  | None => ret tt
  end ;;;
  ws_current_close ;;;
  pc_current_close ;;;
  setInCall false ;;;
  setLocalStream None ;;;
  setRemoteStream None ;;;
  setRoomId "".

Definition handlePeerLeft (c : Closure) : M unit :=
  emit (Alert "The other user has left the room.") ;;;
  handleHangUp c.

(** [data.payload?.sdp] and [data.payload?.message] *)
Definition payload_sdp (m : WebSocketMessage) : option string :=
  match msg_payload m with Some p => in_sdp p | None => None end.
Definition payload_candidate (m : WebSocketMessage) : option Candidate :=
  match msg_payload m with Some p => in_candidate p | None => None end.
Definition payload_message (m : WebSocketMessage) : option string :=
  match msg_payload m with Some p => in_message p | None => None end.

(** The [switch (data.type)] of [ws.current.onmessage]; it has no
    [default] branch. *)
Definition dispatch_message (c : Closure) (m : WebSocketMessage) (o : Oracle) : M unit :=
  if String.eqb (msg_type m) "peer_joined" then createOffer c (cl_roomId c) o
  else if String.eqb (msg_type m) "offer" then
    match payload_sdp m with
    | Some sdp => if truthy (Some sdp) then handleOffer c sdp (cl_roomId c) o else ret tt
    | None => ret tt
    end
  else if String.eqb (msg_type m) "answer" then
    match payload_sdp m with
    | Some sdp => if truthy (Some sdp) then handleAnswer sdp o else ret tt
    | None => ret tt
    end
  else if String.eqb (msg_type m) "candidate" then
    match payload_candidate m with
    | Some cand => handleCandidate cand o
    | None => ret tt
    end
  else if String.eqb (msg_type m) "peer_left" then handlePeerLeft c
  else if String.eqb (msg_type m) "error" then
    match payload_message m with
    | Some msg => if truthy (Some msg) then emit (Alert msg) else ret tt
    | None => ret tt
    end ;;;
    handleHangUp c
  else ret tt.

(** [ws.current.onmessage]: [JSON.parse] and the read of [data.type] are
    outside any [try]. *)
Definition onmessage (c : Closure) (f : Frame) (o : Oracle) : M unit :=
  match f with
  | Malformed => throw SyntaxError
  | JsonNull => throw TypeError
  | Decoded m =>
      emit (ConsoleLog ("Received message: " ++ msg_type m)) ;;;
      dispatch_message c m o
  end.

(** The cleanup of the mount effect. *)
Definition cleanup : M unit :=
  ws_current_close ;;; pc_current_close.

(** ** The event loop *)

Inductive Event :=
| TypeRoomId (s : string)
| ClickJoin (o : Oracle)
| ClickHangUp
| SocketOpen
| SocketMessage (f : Frame) (o : Oracle)
| IceCandidateFound (h : nat) (c : option Candidate)
| TrackAdded (h : nat) (s : option MediaStream)
| Unmount.

(** The render the user currently sees; its handlers close over the
    current state. *)
Definition current_render (w : World) : Closure :=
  mkClosure (roomId w) (localStream w).

(** Which handler an event reaches.  The room input and the Join button
    exist only while [inCall] is false and the Hang Up button only while it
    is true.  A socket on which [close] was called does not open any more,
    but it may still deliver frames that were in flight; a closed peer
    connection fires no more events. *)
Definition dispatch (e : Event) : M unit := λ w,
  match e with
  | TypeRoomId s => if inCall w then ret tt w else setRoomId s w
  | ClickJoin o => if inCall w then ret tt w else handleJoinRoom (current_render w) o w
  | ClickHangUp => if inCall w then handleHangUp (current_render w) w else ret tt w
  | SocketOpen =>
      match ws_current w with
      | Some s => if ws_closed s then ret tt w else onopen (ws_closure s) w
      | None => ret tt w
      end
  | SocketMessage f o =>
      match ws_current w with
      | Some s => onmessage (ws_closure s) f o w
      | None => ret tt w
      end
  | IceCandidateFound h c =>
      match pcs w !! h with
      | Some p => if pc_closed p then ret tt w else onicecandidate (pc_roomId p) c w
      | None => ret tt w
      end
  | TrackAdded h s =>
      match pcs w !! h with
      | Some p => if pc_closed p then ret tt w else ontrack s w
      | None => ret tt w
      end
  | Unmount => cleanup w
  end.

(** An exception that leaves a handler is reported by the browser and the
    page goes on with the state the handler left. *)
Definition handle_event (e : Event) : M unit :=
  try_catch (dispatch e) (λ err, emit (Uncaught err)).

Fixpoint run (es : list Event) : M unit :=
  match es with
  | [] => ret tt
  | e :: es' => handle_event e ;;; run es'
  end.

Definition initial : World :=
  mkWorld "" false None None None None [] ∅.

(** ** Observations *)

(** Handles of the connections that were not closed. *)
Fixpoint live_from (i : nat) (l : list PeerConnection) : list nat :=
  match l with
  | [] => []
  | p :: l' => if pc_closed p then live_from (S i) l' else i :: live_from (S i) l'
  end.
Definition live_handles (w : World) : list nat := live_from 0 (pcs w).

(** The object behind [pc.current]. *)
Definition current_pc (w : World) : option PeerConnection :=
  match pc_current w with
  | Some h => pcs w !! h
  | None => None
  end.

Definition current_pc_live (w : World) : bool :=
  match current_pc w with
  | Some p => negb (pc_closed p)
  | None => false
  end.

(** The envelopes of a given type among recorded effects. *)
Fixpoint sent (type : string) (es : list Effect) : list Envelope :=
  match es with
  | [] => []
  | WsSend e :: es' =>
      if String.eqb (env_type e) type then e :: sent type es' else sent type es'
  | _ :: es' => sent type es'
  end.

Fixpoint all_sent (es : list Effect) : list Envelope :=
  match es with
  | [] => []
  | WsSend e :: es' => e :: all_sent es'
  | _ :: es' => all_sent es'
  end.

(** Whether something was reported: an alert, a [console.error], or an
    exception that escaped. *)
Definition is_report (e : Effect) : bool :=
  match e with
  | Alert _ | ConsoleError _ | Uncaught _ => true
  | _ => false
  end.
Definition reported (es : list Effect) : bool := existsb is_report es.

(** The negotiation state of the session, read off the connection behind
    [pc.current]; the component keeps no state variable of its own for it. *)
Inductive Negotiation := NIdle | NOffering | NAnswering | NStable | NClosed.

Definition negotiation (w : World) : Negotiation :=
  match current_pc w with
  | None => NIdle
  | Some p =>
      if pc_closed p then NClosed
      else match pc_localDescription p, pc_remoteDescription p with
           | None, None => NIdle
           | Some _, None => NOffering
           | None, Some _ => NAnswering
           | Some _, Some _ => NStable
           end
  end.

(** The session is idle: not in a call, no local media, no room id, and
    no live connection behind [pc.current]. *)
Definition is_idle (w : World) : bool :=
  negb (inCall w) && bool_decide (localStream w = None)
  && String.eqb (roomId w) "" && negb (current_pc_live w).

(** Replaying recorded effects on the set of live connection handles:
    [new RTCPeerConnection] adds one, [close] removes one. *)
Definition replay1 (e : Effect) (live : list nat) : list nat :=
  match e with
  | PcNew h => live ++ [h]
  | PcClose h => filter (λ x, x ≠ h) live
  | _ => live
  end.

Fixpoint replay (es : list Effect) (live : list nat) : list nat :=
  match es with
  | [] => live
  | e :: es' => replay es' (replay1 e live)
  end.

(** At most one handle is live before and after every recorded effect. *)
Fixpoint single_throughout (es : list Effect) (live : list nat) : bool :=
  Nat.leb (length live) 1 &&
  match es with
  | [] => true
  | e :: es' => single_throughout es' (replay1 e live)
  end.

(** How often a candidate was handed to [addIceCandidate]. *)
Fixpoint applications (c : Candidate) (es : list Effect) : nat :=
  match es with
  | [] => 0
  | PcAddIceCandidate _ c' :: es' =>
      if String.eqb (cand_text c') (cand_text c) then S (applications c es')
      else applications c es'
  | _ :: es' => applications c es'
  end.

(** The [case] labels of the [switch] in [onmessage]. *)
Definition known_types : list string :=
  ["peer_joined"; "offer"; "answer"; "candidate"; "peer_left"; "error"].






(** ** Closed forms used by the proofs *)

Definition stream_tracks (c : Closure) : list nat :=
  match cl_localStream c with
  | Some s => ms_tracks s
  | None => []
  end.

(** The store after [pc.current?.close()], and what that call records. *)
Definition closed_current (w : World) : World :=
  match pc_current w with
  | Some h => update_pc h pc_close w
  | None => w
  end.
Definition close_effects (w : World) : list Effect :=
  match pc_current w with
  | Some h => [PcClose h]
  | None => []
  end.

(** The store after [createPeerConnection]. *)
Definition created (c : Closure) (currentRoomId : string) (w : World) : World :=
  set_pc_current (Some (length (pcs w)))
    (set_pcs (pcs (closed_current w)
              ++ [mkPc false currentRoomId (stream_tracks c) None None []])
       (closed_current w)).

(** The store after [ws.current?.close()]. *)
Definition closed_socket (w : World) : World :=
  match ws_current w with
  | Some s => set_ws_current (Some (mkWs true (ws_closure s))) w
  | None => w
  end.
Definition socket_close_effects (w : World) : list Effect :=
  match ws_current w with
  | Some _ => [WsClose]
  | None => []
  end.

(** The store after a hang-up from the render [c]. *)
Definition hung_up (c : Closure) (w : World) : World :=
  set_roomId "" (set_remoteStream None (set_localStream None (set_inCall false
    (closed_current (closed_socket
       (set_stopped (list_to_set (stream_tracks c) ∪ stopped w) w)))))).

(** At most one live handle, and it is the one in [pc.current]. *)
Definition single (w : World) : Prop :=
  live_handles w = [] ∨ ∃ h, pc_current w = Some h ∧ live_handles w = [h].

(** A computation keeps [single], and the recorded effects replay to the
    live handles of the store at every step. *)
Definition traced {A} (m : M A) : Prop :=
  ∀ w, single w →
    single (world (m w))
    ∧ replay (effects (m w)) (live_handles w) = live_handles (world (m w))
    ∧ single_throughout (effects (m w)) (live_handles w) = true.

(** Once a socket was created, [ws.current] is never reset to null. *)
Definition has_socket (w : World) : Prop := is_Some (ws_current w).

(** No peer connection was created yet. *)
Definition no_connection (w : World) : Prop := pcs w = [].

(** A peer connection exists only in a session that has a socket. *)
Definition socket_first (w : World) : Prop := no_connection w ∨ has_socket w.

(** A computation keeps a property of the store. *)
Definition preserves {A} (I : World → Prop) (m : M A) : Prop :=
  ∀ w, I w → I (world (m w)).

(** What [sendMessage] records: a send when [ws.current] is set. *)
Definition send_effects (type : string) (payload : Payload) (w : World) : list Effect :=
  match ws_current w with
  | Some _ => [WsSend (mkEnv type payload)]
  | None => []
  end.

(** What [createPeerConnection] records. *)
Definition create_effects (c : Closure) (w : World) : list Effect :=
  close_effects w ++ PcNew (length (pcs w))
    :: map (PcAddTrack (length (pcs w))) (stream_tracks c).

(** The outcome of the [try] block of [createOffer] on the connection
    [h] just created in [w1], by what the browser answers. *)
Definition offer_attempt (h : nat) (currentRoomId : string) (o : Oracle)
    (w1 : World) : Outcome unit :=
  match o_createOffer o with
  | None =>
      mkOutcome (Normal tt) w1 [PcCreateOffer h; ConsoleError "Error creating offer:"]
  | Some sdp =>
      if o_setLocalDescription o then
        mkOutcome (Normal tt)
          (update_pc h (pc_set_local (mkDesc SdpOffer sdp)) w1)
          (PcCreateOffer h :: PcSetLocalDescription h (mkDesc SdpOffer sdp)
             :: send_effects "offer"
                  (PDescription currentRoomId (Some (mkDesc SdpOffer sdp))) w1)
      else
        mkOutcome (Normal tt) w1
          [PcCreateOffer h; PcSetLocalDescription h (mkDesc SdpOffer sdp);
           ConsoleError "Error creating offer:"]
  end.

(** The outcome of the [try] block of [handleOffer], likewise. *)
Definition answer_attempt (h : nat) (sdp : string) (currentRoomId : string)
    (o : Oracle) (w1 : World) : Outcome unit :=
  let remote := mkDesc SdpOffer sdp in
  if o_setRemoteDescription o then
    let w2 := update_pc h (pc_set_remote remote) w1 in
    match o_createAnswer o with
    | None =>
        mkOutcome (Normal tt) w2
          [PcSetRemoteDescription h remote; PcCreateAnswer h;
           ConsoleError "Error handling offer:"]
    | Some a =>
        if o_setLocalDescription o then
          mkOutcome (Normal tt)
            (update_pc h (pc_set_local (mkDesc SdpAnswer a)) w2)
            (PcSetRemoteDescription h remote :: PcCreateAnswer h
               :: PcSetLocalDescription h (mkDesc SdpAnswer a)
               :: send_effects "answer"
                    (PDescription currentRoomId (Some (mkDesc SdpAnswer a))) w1)
        else
          mkOutcome (Normal tt) w2
            [PcSetRemoteDescription h remote; PcCreateAnswer h;
             PcSetLocalDescription h (mkDesc SdpAnswer a);
             ConsoleError "Error handling offer:"]
    end
  else
    mkOutcome (Normal tt) w1
      [PcSetRemoteDescription h remote; ConsoleError "Error handling offer:"].

(** ** Sample sessions *)

Definition all_ok : Oracle :=
  mkOracle (Some (mkStream 0 [0; 1])) (Some "v=0 offer") (Some "v=0 answer")
           true true true.
Definition offer_fails : Oracle :=
  mkOracle (Some (mkStream 0 [0; 1])) None (Some "v=0 answer") true true true.

Definition msg_peer_joined : WebSocketMessage := mkMsg "peer_joined" None.
Definition msg_offer (sdp : string) : WebSocketMessage :=
  mkMsg "offer" (Some (mkIn None (Some sdp) None None)).
Definition msg_answer (sdp : string) : WebSocketMessage :=
  mkMsg "answer" (Some (mkIn None (Some sdp) None None)).
Definition msg_candidate (c : Candidate) : WebSocketMessage :=
  mkMsg "candidate" (Some (mkIn None None (Some c) None)).

(** A user typed "room1", pressed Join, media was granted and the socket
    opened. *)
Definition join_events : list Event :=
  [TypeRoomId "room1"; ClickJoin all_ok; SocketOpen].
Definition joined : World := world (run join_events initial).

(** The same session after the relay announced a peer. *)
Definition offering : World :=
  world (handle_event (SocketMessage (Decoded msg_peer_joined) all_ok) joined).

Definition cand1 : Candidate := mkCand "candidate:1 1 udp 2122260223 10.0.0.2 50000 typ host".

(** The joined session after the relay announced a peer and the offer
    went out. *)
Definition offering_events : list Event :=
  join_events ++ [SocketMessage (Decoded msg_peer_joined) all_ok].

(** A candidate reaches a freshly joined session before any description:
    the relay forwards the peer's candidate, then the peer's offer. *)
Definition early_candidate_events : list Event :=
  join_events ++
  [SocketMessage (Decoded (msg_candidate cand1)) all_ok;
   SocketMessage (Decoded (msg_offer "v=0 offer")) all_ok].

(** ** Further observations *)

(** A computation records only effects that satisfy [P]. *)
Definition emits_only {A} (P : Effect → Prop) (m : M A) : Prop :=
  ∀ w, Forall P (effects (m w)).

(** A computation ends normally from every session. *)
Definition returns {A} (m : M A) : Prop :=
  ∀ w, ∃ a, completion (m w) = Normal a.

(** The [addTrack] calls and the [track.stop] calls among recorded
    effects. *)
Fixpoint attached (es : list Effect) : list (nat * nat) :=
  match es with
  | [] => []
  | PcAddTrack h t :: es' => (h, t) :: attached es'
  | _ :: es' => attached es'
  end.

Fixpoint track_stops (es : list Effect) : list nat :=
  match es with
  | [] => []
  | TrackStop t :: es' => t :: track_stops es'
  | _ :: es' => track_stops es'
  end.

Definition not_send (e : Effect) : Prop :=
  match e with WsSend _ => False | _ => True end.
Definition not_addTrack (e : Effect) : Prop :=
  match e with PcAddTrack _ _ => False | _ => True end.
Definition not_trackStop (e : Effect) : Prop :=
  match e with TrackStop _ => False | _ => True end.

(** The render behind the session's socket holds no local stream. *)
Definition socket_render_has_no_stream (w : World) : Prop :=
  match ws_current w with
  | Some s => cl_localStream (ws_closure s) = None
  | None => True
  end.

(** A local stream is held exactly while in a call. *)
Definition stream_iff_in_call (w : World) : Prop :=
  inCall w = match localStream w with Some _ => true | None => false end.

(** No connection of the store holds a track. *)
Definition no_tracks (w : World) : Prop :=
  Forall (λ p, pc_tracks p = []) (pcs w).

(** The React state of the session. *)
Definition react_state (w : World) :
    string * bool * option MediaStream * option MediaStream :=
  (roomId w, inCall w, localStream w, remoteStream w).

(** Frames delivered one after another, each with the browser's answers
    for its handler. *)
Definition frame_events (fs : list (WebSocketMessage * Oracle)) : list Event :=
  map (λ mo, SocketMessage (Decoded mo.1) mo.2) fs.

(** The candidates the frames carry, in order; a frame without one
    contributes nothing. *)
Definition carried_candidates (fs : list (WebSocketMessage * Oracle)) : list Candidate :=
  omap (λ mo, payload_candidate mo.1) fs.

(** The [addIceCandidate] calls among recorded effects. *)
Fixpoint ice_calls (es : list Effect) : list (nat * Candidate) :=
  match es with
  | [] => []
  | PcAddIceCandidate h c :: es' => (h, c) :: ice_calls es'
  | _ :: es' => ice_calls es'
  end.

(** The sdp of a frame when the guard [if (data.payload?.sdp)] lets it
    through: present and non-empty. *)
Definition usable_sdp (m : WebSocketMessage) : option string :=
  match payload_sdp m with
  | Some sdp => if String.eqb sdp "" then None else Some sdp
  | None => None
  end.

(** The offer text when both browser steps of [createOffer] resolve, and
    the answer text when all three browser steps of [handleOffer] do. *)
Definition offer_succeeds (o : Oracle) : option string :=
  match o_createOffer o with
  | Some sdp => if o_setLocalDescription o then Some sdp else None
  | None => None
  end.
Definition answer_succeeds (o : Oracle) : option string :=
  if o_setRemoteDescription o then
    match o_createAnswer o with
    | Some a => if o_setLocalDescription o then Some a else None
    | None => None
    end
  else None.

(** Frames as the relay forwards them, with the room id in the payload. *)
Definition relayed_offer (id sdp : string) : WebSocketMessage :=
  mkMsg "offer" (Some (mkIn (Some id) (Some sdp) None None)).
Definition relayed_candidate (id : string) (c : Candidate) : WebSocketMessage :=
  mkMsg "candidate" (Some (mkIn (Some id) None (Some c) None)).
Definition relayed_peer_joined (id : string) : WebSocketMessage :=
  mkMsg "peer_joined" (Some (mkIn (Some id) None None None)).

(** A frame of the given type whose payload carries only a message. *)
Definition msg_error (message : option string) : WebSocketMessage :=
  mkMsg "error" (Some (mkIn None None None message)).

(** What the [error] branch alerts: the message, when it is non-empty. *)
Definition error_alert (message : option string) : list Effect :=
  match message with
  | Some msg => if String.eqb msg "" then [] else [Alert msg]
  | None => []
  end.

(** What a hang-up from render [c] records in session [w]. *)
Definition hang_up_effects (c : Closure) (w : World) : list Effect :=
  map TrackStop (stream_tracks c) ++ socket_close_effects w ++ close_effects w
  ++ [SetInCall false; SetLocalStream None; SetRemoteStream None; SetRoomId ""].

Definition media_denied : Oracle :=
  mkOracle None (Some "v=0 offer") (Some "v=0 answer") true true true.
Definition answer_fails : Oracle :=
  mkOracle (Some (mkStream 0 [0; 1])) (Some "v=0 offer") None true true true.
Definition cand2 : Candidate := mkCand "candidate:2 1 udp 1686052607 203.0.113.7 50001 typ srflx".

(** The offering session after the peer's answer was applied. *)
Definition answered : World :=
  world (handle_event (SocketMessage (Decoded (msg_answer "v=0 answer")) all_ok) offering).

(** ** Evaluating the monad *)

Ltac run_m :=
  cbn [bind ret emit modify gets try_catch throw await await_apply prepend
       setRoomId setInCall setLocalStream setRemoteStream
       completion world effects app].

Lemma bind_eq {A B} (m : M A) (f : A → M B) w a w1 es1 :
  m w = mkOutcome (Normal a) w1 es1 →
  bind m f w = prepend es1 (f a w1).
Proof. intros H. unfold bind. rewrite H. reflexivity. Qed.

Lemma set_pcs_id w : set_pcs (pcs w) w = w.
Proof. destruct w; reflexivity. Qed.

Lemma update_pc_length h f w : length (pcs (update_pc h f w)) = length (pcs w).
Proof.
  unfold update_pc. destruct (pcs w !! h); [|reflexivity].
  cbn. apply length_insert.
Qed.

Lemma closed_current_length w : length (pcs (closed_current w)) = length (pcs w).
Proof. unfold closed_current. destruct (pc_current w); [apply update_pc_length|reflexivity]. Qed.

Lemma insert_snoc {A} (l : list A) (x y : A) :
  <[length l := y]> (l ++ [x]) = l ++ [y].
Proof.
  rewrite insert_app_r_alt by lia. rewrite Nat.sub_diag. reflexivity.
Qed.

Lemma lookup_snoc {A} (l : list A) (x : A) : (l ++ [x]) !! length l = Some x.
Proof. rewrite lookup_app_r by lia. rewrite Nat.sub_diag. reflexivity. Qed.

(** ** Closed forms of the calls on the refs *)

Lemma pc_current_close_eq w :
  pc_current_close w = mkOutcome (Normal tt) (closed_current w) (close_effects w).
Proof.
  unfold pc_current_close, closed_current, close_effects. run_m.
  destruct (pc_current w); reflexivity.
Qed.

Lemma ws_current_close_eq w :
  ws_current_close w = mkOutcome (Normal tt) (closed_socket w) (socket_close_effects w).
Proof.
  unfold ws_current_close, closed_socket, socket_close_effects. run_m.
  destruct (ws_current w); reflexivity.
Qed.

Lemma forEach_track_stop ts w :
  forEach track_stop ts w =
  mkOutcome (Normal tt) (set_stopped (list_to_set ts ∪ stopped w) w) (map TrackStop ts).
Proof.
  revert w. induction ts as [|t ts IH]; intros w.
  - cbn. rewrite (left_id_L ∅ (∪)). destruct w; reflexivity.
  - cbn [forEach]. unfold track_stop. run_m.
    rewrite IH. cbn.
    rewrite (comm_L (∪) {[t]} (list_to_set ts)).
    rewrite <- (assoc_L (∪)). reflexivity.
Qed.

Lemma addTrack_current_eq t w h :
  pc_current w = Some h →
  addTrack_current t w =
  mkOutcome (Normal tt) (update_pc h (pc_add_track t) w) [PcAddTrack h t].
Proof. intros Hc. unfold addTrack_current. run_m. rewrite Hc. reflexivity. Qed.

Lemma forEach_addTrack ts w h p :
  pc_current w = Some h → pcs w !! h = Some p →
  forEach addTrack_current ts w =
  mkOutcome (Normal tt)
    (set_pcs (<[h := mkPc (pc_closed p) (pc_roomId p) (pc_tracks p ++ ts)
                       (pc_localDescription p) (pc_remoteDescription p)
                       (pc_candidates p)]> (pcs w)) w)
    (map (PcAddTrack h) ts).
Proof.
  revert w p. induction ts as [|t ts IH]; intros w p Hc Hp.
  - cbn. rewrite app_nil_r.
    replace (mkPc _ _ _ _ _ _) with p by (destruct p; reflexivity).
    rewrite list_insert_id by exact Hp. rewrite set_pcs_id. reflexivity.
  - cbn [forEach].
    rewrite (bind_eq _ _ _ _ _ _ (addTrack_current_eq t w h Hc)).
    unfold update_pc. rewrite Hp.
    rewrite (IH _ (pc_add_track t p)).
    + cbn. unfold set_pcs; cbn.
      rewrite list_insert_insert_eq. rewrite <- app_assoc. reflexivity.
    + exact Hc.
    + cbn. apply list_lookup_insert_eq. eapply lookup_lt_Some; eauto.
Qed.

(** ** Closed forms of the component's functions *)

Lemma createPeerConnection_eq c rid w :
  createPeerConnection c rid w =
  mkOutcome (Normal tt) (created c rid w)
    (close_effects w ++ PcNew (length (pcs w))
       :: map (PcAddTrack (length (pcs w))) (stream_tracks c)).
Proof.
  unfold createPeerConnection.
  rewrite (bind_eq _ _ _ _ _ _ (pc_current_close_eq w)).
  unfold created, stream_tracks.
  pose proof (closed_current_length w) as Hlen.
  set (w0 := closed_current w) in *.
  run_m.
  destruct (cl_localStream c) as [s|].
  - rewrite (forEach_addTrack (ms_tracks s) _ (length (pcs w0)) (pc_fresh rid))
      by (cbn; auto using lookup_snoc).
    cbn. rewrite insert_snoc. rewrite Hlen. reflexivity.
  - cbn. rewrite Hlen. reflexivity.
Qed.

Lemma handleHangUp_eq c w :
  handleHangUp c w =
  mkOutcome (Normal tt) (hung_up c w)
    (map TrackStop (stream_tracks c) ++ socket_close_effects w ++ close_effects w
       ++ [SetInCall false; SetLocalStream None; SetRemoteStream None; SetRoomId ""]).
Proof.
  unfold handleHangUp.
  assert (Hstop : (match cl_localStream c with
                   | Some s => forEach track_stop (ms_tracks s)
                   | None => ret tt
                   end) w =
                  mkOutcome (Normal tt)
                    (set_stopped (list_to_set (stream_tracks c) ∪ stopped w) w)
                    (map TrackStop (stream_tracks c))).
  { unfold stream_tracks. destruct (cl_localStream c).
    - apply forEach_track_stop.
    - cbn. rewrite (left_id_L ∅ (∪)). destruct w; reflexivity. }
  rewrite (bind_eq _ _ _ _ _ _ Hstop).
  rewrite (bind_eq _ _ _ _ _ _ (ws_current_close_eq _)).
  rewrite (bind_eq _ _ _ _ _ _ (pc_current_close_eq _)).
  run_m. unfold hung_up, socket_close_effects, close_effects, closed_socket.
  cbn. destruct (ws_current w); reflexivity.
Qed.

Lemma sendMessage_eq type payload w :
  sendMessage type payload w = mkOutcome (Normal tt) w (send_effects type payload w).
Proof.
  unfold sendMessage, send_effects. run_m. destruct (ws_current w); reflexivity.
Qed.

Lemma created_pc_current c rid w : pc_current (created c rid w) = Some (length (pcs w)).
Proof. reflexivity. Qed.

Lemma created_lookup c rid w :
  pcs (created c rid w) !! length (pcs w) =
  Some (mkPc false rid (stream_tracks c) None None []).
Proof.
  unfold created. cbn. rewrite <- (closed_current_length w). apply lookup_snoc.
Qed.

Lemma closed_current_ws w : ws_current (closed_current w) = ws_current w.
Proof.
  unfold closed_current, update_pc.
  destruct (pc_current w) as [h|]; [|reflexivity].
  destruct (pcs w !! h); reflexivity.
Qed.

Lemma created_ws c rid w : ws_current (created c rid w) = ws_current w.
Proof. unfold created. cbn. apply closed_current_ws. Qed.

Lemma update_pc_ws h f w : ws_current (update_pc h f w) = ws_current w.
Proof. unfold update_pc. destruct (pcs w !! h); reflexivity. Qed.

Lemma update_pc_pc_current h f w : pc_current (update_pc h f w) = pc_current w.
Proof. unfold update_pc. destruct (pcs w !! h); reflexivity. Qed.

Lemma update_pc_lookup h f w p :
  pcs w !! h = Some p → pcs (update_pc h f w) !! h = Some (f p).
Proof.
  intros Hp. unfold update_pc. rewrite Hp. cbn.
  apply list_lookup_insert_eq. eapply lookup_lt_Some; eauto.
Qed.

Lemma current_localDescription_set h d w p :
  pc_current w = Some h → pcs w !! h = Some p →
  current_localDescription (update_pc h (pc_set_local d) w) = Some d.
Proof.
  intros Hc Hp. unfold current_localDescription.
  rewrite update_pc_pc_current, Hc.
  rewrite (update_pc_lookup _ _ _ _ Hp). reflexivity.
Qed.

Lemma createOffer_eq c rid o w :
  createOffer c rid o w =
  prepend (ConsoleLog "Creating offer..." :: create_effects c w)
    (offer_attempt (length (pcs w)) rid o (created c rid w)).
Proof.
  unfold createOffer. run_m.
  rewrite (bind_eq _ _ _ _ _ _ (createPeerConnection_eq c rid _)).
  run_m. rewrite created_pc_current. unfold offer_attempt, create_effects.
  destruct (o_createOffer o) as [sdp|]; run_m; [|reflexivity].
  destruct (o_setLocalDescription o); run_m; [|reflexivity].
  rewrite (current_localDescription_set _ _ _ _ (created_pc_current c rid w)
             (created_lookup c rid w)).
  rewrite sendMessage_eq. unfold send_effects. rewrite update_pc_ws.
  reflexivity.
Qed.

Lemma handleOffer_eq c sdp rid o w :
  handleOffer c sdp rid o w =
  prepend (ConsoleLog "Handling offer..." :: create_effects c w)
    (answer_attempt (length (pcs w)) sdp rid o (created c rid w)).
Proof.
  unfold handleOffer. run_m.
  rewrite (bind_eq _ _ _ _ _ _ (createPeerConnection_eq c rid _)).
  run_m. rewrite created_pc_current. unfold answer_attempt, create_effects.
  destruct (o_setRemoteDescription o); run_m; [|reflexivity].
  destruct (o_createAnswer o) as [a|]; run_m; [|reflexivity].
  destruct (o_setLocalDescription o); run_m; [|reflexivity].
  erewrite current_localDescription_set.
  - rewrite sendMessage_eq. unfold send_effects. rewrite !update_pc_ws.
    reflexivity.
  - rewrite update_pc_pc_current. apply created_pc_current.
  - apply update_pc_lookup. apply created_lookup.
Qed.

Lemma handleAnswer_eq sdp o w :
  handleAnswer sdp o w =
  match pc_current w with
  | None => mkOutcome (Normal tt) w [ConsoleLog "Handling answer..."]
  | Some h =>
      if o_setRemoteDescription o then
        mkOutcome (Normal tt) (update_pc h (pc_set_remote (mkDesc SdpAnswer sdp)) w)
          [ConsoleLog "Handling answer...";
           PcSetRemoteDescription h (mkDesc SdpAnswer sdp)]
      else
        mkOutcome (Normal tt) w
          [ConsoleLog "Handling answer...";
           PcSetRemoteDescription h (mkDesc SdpAnswer sdp);
           ConsoleError "Error handling answer:"]
  end.
Proof.
  unfold handleAnswer. run_m.
  destruct (pc_current w) as [h|]; run_m; [|reflexivity].
  destruct (o_setRemoteDescription o); reflexivity.
Qed.

Lemma handleCandidate_eq cand o w :
  handleCandidate cand o w =
  match pc_current w with
  | None => mkOutcome (Normal tt) w []
  | Some h =>
      if o_addIceCandidate o then
        mkOutcome (Normal tt) (update_pc h (pc_add_candidate cand) w)
          [PcAddIceCandidate h cand]
      else
        mkOutcome (Normal tt) w
          [PcAddIceCandidate h cand;
           ConsoleError "Error adding received ice candidate"]
  end.
Proof.
  unfold handleCandidate. run_m.
  destruct (pc_current w) as [h|]; run_m; [|reflexivity].
  destruct (o_addIceCandidate o); reflexivity.
Qed.

(** ** Remote candidates (C1) *)

Lemma applications_app c es1 es2 :
  applications c (es1 ++ es2) = applications c es1 + applications c es2.
Proof.
  induction es1 as [|e es1 IH]; [reflexivity|].
  destruct e; cbn; try exact IH.
  destruct (String.eqb _ _); cbn; rewrite IH; reflexivity.
Qed.

Lemma applications_create c' c w : applications c' (create_effects c w) = 0.
Proof.
  unfold create_effects, close_effects. rewrite applications_app.
  destruct (pc_current w); cbn;
    induction (stream_tracks c); cbn; auto.
Qed.

Lemma applications_handleOffer c' c sdp rid o w :
  applications c' (effects (handleOffer c sdp rid o w)) = 0.
Proof.
  rewrite handleOffer_eq. cbn [prepend effects app applications].
  rewrite applications_app, applications_create.
  unfold answer_attempt, send_effects.
  destruct (o_setRemoteDescription o), (o_createAnswer o),
    (o_setLocalDescription o), (ws_current (created c rid w)); reflexivity.
Qed.

Lemma applications_handleAnswer c' sdp o w :
  applications c' (effects (handleAnswer sdp o w)) = 0.
Proof.
  rewrite handleAnswer_eq.
  destruct (pc_current w), (o_setRemoteDescription o); reflexivity.
Qed.

(** C1 (as the code has it).  [handleCandidate] keeps no buffer.  With no
    peer connection it returns at once: the candidate is discarded, the
    session is unchanged and nothing is recorded.  With a peer connection
    the candidate is handed to [addIceCandidate] immediately, whether or not
    a remote description was set; it is added when the browser accepts it,
    and when the browser rejects it the error goes to [console.error] and
    the session is unchanged.  Setting a remote description afterwards, in
    [handleOffer] or [handleAnswer], applies no candidate. *)
Theorem handleCandidate_immediate_or_dropped
    (cand : Candidate) (o : Oracle) (w : World) :
  handleCandidate cand o w =
    match pc_current w with
    | None => mkOutcome (Normal tt) w []
    | Some h =>
        if o_addIceCandidate o then
          mkOutcome (Normal tt) (update_pc h (pc_add_candidate cand) w)
            [PcAddIceCandidate h cand]
        else
          mkOutcome (Normal tt) w
            [PcAddIceCandidate h cand;
             ConsoleError "Error adding received ice candidate"]
    end
  ∧ (∀ c sdp rid o' c',
       applications c' (effects (handleOffer c sdp rid o' w)) = 0)
  ∧ (∀ sdp o' c',
       applications c' (effects (handleAnswer sdp o' w)) = 0).
Proof.
  split; [apply handleCandidate_eq|].
  split; intros.
  - apply applications_handleOffer.
  - apply applications_handleAnswer.
Qed.

(** C1 fails on the code.  A candidate that arrives in a joined session
    before the offer is never applied: after the offer has been handled
    the remote description is set, the candidate was handed to
    [addIceCandidate] zero times, the connection holds no candidate, and
    nothing was reported. *)
Lemma early_candidate_is_lost :
  let r := run early_candidate_events initial in
  (pc_remoteDescription <$> current_pc (world r))
    = Some (Some (mkDesc SdpOffer "v=0 offer"))
  ∧ applications cand1 (effects r) = 0
  ∧ applications cand1 (effects r) ≠ 1
  ∧ (pc_candidates <$> current_pc (world r)) = Some []
  ∧ reported (effects r) = false.
Proof. vm_compute. repeat split; discriminate. Qed.

(** ** Remote answers (C2) *)

(** C2 (as the code has it).  [handleAnswer] does not consult the
    negotiation state.  With no peer connection it returns after its trace
    line: the session is unchanged and nothing is reported.  With a peer
    connection it always calls [setRemoteDescription] with the answer; when
    the browser accepts, the remote description is set, and when the browser
    rejects, the error goes to [console.error] and the session is
    unchanged. *)
Theorem handleAnswer_unguarded (sdp : string) (o : Oracle) (w : World) :
  handleAnswer sdp o w =
  match pc_current w with
  | None => mkOutcome (Normal tt) w [ConsoleLog "Handling answer..."]
  | Some h =>
      if o_setRemoteDescription o then
        mkOutcome (Normal tt) (update_pc h (pc_set_remote (mkDesc SdpAnswer sdp)) w)
          [ConsoleLog "Handling answer...";
           PcSetRemoteDescription h (mkDesc SdpAnswer sdp)]
      else
        mkOutcome (Normal tt) w
          [ConsoleLog "Handling answer...";
           PcSetRemoteDescription h (mkDesc SdpAnswer sdp);
           ConsoleError "Error handling answer:"]
  end.
Proof. apply handleAnswer_eq. Qed.

(** C2 fails on the code.  An answer that reaches a joined session which
    made no offer leaves the session unchanged, but no violation is
    reported: the only output is the two trace lines. *)
Lemma answer_without_offer_not_reported :
  let r := handle_event (SocketMessage (Decoded (msg_answer "v=0 answer")) all_ok) joined in
  negotiation joined = NIdle
  ∧ world r = joined
  ∧ effects r = [ConsoleLog "Received message: answer"; ConsoleLog "Handling answer..."]
  ∧ ¬ (world r = joined ∧ reported (effects r) = true).
Proof.
  vm_compute. repeat split. intros [_ H]. discriminate H.
Qed.

(** ** Hang-up (C5, C9) *)


Lemma hung_up_idle c w : is_idle (hung_up c w) = true.
Proof.
  unfold is_idle, current_pc_live, current_pc, hung_up, closed_socket,
    closed_current, update_pc.
  destruct w as [rid ic ls rs ws pc l st]; cbn.
  destruct ws as [s|], pc as [h|]; cbn; try reflexivity.
  - destruct (l !! h) as [p|] eqn:Hl; cbn; [|rewrite Hl; reflexivity].
    rewrite list_lookup_insert_eq by (eapply lookup_lt_Some; eauto). reflexivity.
  - destruct (l !! h) as [p|] eqn:Hl; cbn; [|rewrite Hl; reflexivity].
    rewrite list_lookup_insert_eq by (eapply lookup_lt_Some; eauto). reflexivity.
Qed.

Lemma reported_app es1 es2 : reported (es1 ++ es2) = reported es1 || reported es2.
Proof. apply existsb_app. Qed.







(** ** Joining (C8) *)

(** C8.  Joining with an empty room id only raises the alert
    "Please enter a Room ID.": the handler returns normally with the session
    unchanged, so no media is requested, no socket is created and nothing is
    sent; in particular an idle session stays idle.  This is what pressing
    Join does while the room input is empty. *)
Theorem join_empty_roomId (c : Closure) (o : Oracle) (w : World) :
  cl_roomId c = "" →
  handleJoinRoom c o w = mkOutcome (Normal tt) w [Alert "Please enter a Room ID."]
  ∧ all_sent (effects (handleJoinRoom c o w)) = []
  ∧ (is_idle w = true → is_idle (world (handleJoinRoom c o w)) = true)
  ∧ (c = current_render w → inCall w = false →
     handle_event (ClickJoin o) w
     = mkOutcome (Normal tt) w [Alert "Please enter a Room ID."]).
Proof.
  intros Hc.
  assert (H : handleJoinRoom c o w
              = mkOutcome (Normal tt) w [Alert "Please enter a Room ID."]).
  { unfold handleJoinRoom. rewrite Hc. reflexivity. }
  rewrite H. repeat split; auto.
  intros -> Hin. unfold handle_event, try_catch, dispatch. rewrite Hin, H.
  reflexivity.
Qed.

Lemma join_empty_roomId_witness :
  let c := current_render initial in
  handleJoinRoom c all_ok initial
    = mkOutcome (Normal tt) initial [Alert "Please enter a Room ID."]
  ∧ all_sent (effects (handleJoinRoom c all_ok initial)) = []
  ∧ (is_idle initial = true →
     is_idle (world (handleJoinRoom c all_ok initial)) = true)
  ∧ (c = current_render initial → inCall initial = false →
     handle_event (ClickJoin all_ok) initial
     = mkOutcome (Normal tt) initial [Alert "Please enter a Room ID."]).
Proof.
  apply (join_empty_roomId (current_render initial) all_ok initial). reflexivity.
Defined.

(** ** Inbound frames (C6) *)

Lemma unknown_type_eqb (t k : string) :
  t ∉ known_types → k ∈ known_types → String.eqb t k = false.
Proof.
  intros Hn Hk. apply String.eqb_neq. intros ->. contradiction.
Qed.

Lemma dispatch_unknown c m o w :
  msg_type m ∉ known_types →
  dispatch_message c m o w = mkOutcome (Normal tt) w [].
Proof.
  intros Hn. unfold dispatch_message.
  rewrite !(unknown_type_eqb _ _ Hn)
    by (unfold known_types; repeat first [apply list_elem_of_here | apply list_elem_of_further]).
  reflexivity.
Qed.

(** C6 (as the code has it).  On the session's socket: a frame that is not JSON
    makes [onmessage] throw the [SyntaxError] of [JSON.parse], and a frame
    that is the JSON [null] makes it throw a [TypeError]; in both cases the
    handler has changed nothing, sent nothing and written no diagnostic of
    its own, and the exception leaves the handler uncaught.  A decoded
    frame whose type is none of the six known ones is ignored: the session
    is unchanged and nothing is sent; the only output is the
    "Received message:" trace line. *)
Theorem undecodable_and_unknown_frames
    (s : WebSocket) (o : Oracle) (w : World) (m : WebSocketMessage) :
  ws_current w = Some s →
  msg_type m ∉ known_types →
  onmessage (ws_closure s) Malformed o w = mkOutcome (Throw SyntaxError) w []
  ∧ onmessage (ws_closure s) JsonNull o w = mkOutcome (Throw TypeError) w []
  ∧ handle_event (SocketMessage Malformed o) w
    = mkOutcome (Normal tt) w [Uncaught SyntaxError]
  ∧ handle_event (SocketMessage JsonNull o) w
    = mkOutcome (Normal tt) w [Uncaught TypeError]
  ∧ onmessage (ws_closure s) (Decoded m) o w
    = mkOutcome (Normal tt) w [ConsoleLog ("Received message: " ++ msg_type m)]
  ∧ handle_event (SocketMessage (Decoded m) o) w
    = mkOutcome (Normal tt) w [ConsoleLog ("Received message: " ++ msg_type m)].
Proof.
  intros Hs Hn.
  assert (Hd : onmessage (ws_closure s) (Decoded m) o w
               = mkOutcome (Normal tt) w
                   [ConsoleLog ("Received message: " ++ msg_type m)]).
  { unfold onmessage. run_m. rewrite (dispatch_unknown _ _ _ _ Hn). reflexivity. }
  repeat split; try reflexivity; try exact Hd;
    unfold handle_event, try_catch, dispatch; rewrite Hs, ?Hd; reflexivity.
Qed.

Lemma undecodable_and_unknown_frames_witness :
  let s := mkWs false (mkClosure "room1" None) in
  let m := mkMsg "ping" None in
  onmessage (ws_closure s) Malformed all_ok joined
    = mkOutcome (Throw SyntaxError) joined []
  ∧ onmessage (ws_closure s) JsonNull all_ok joined
    = mkOutcome (Throw TypeError) joined []
  ∧ handle_event (SocketMessage Malformed all_ok) joined
    = mkOutcome (Normal tt) joined [Uncaught SyntaxError]
  ∧ handle_event (SocketMessage JsonNull all_ok) joined
    = mkOutcome (Normal tt) joined [Uncaught TypeError]
  ∧ onmessage (ws_closure s) (Decoded m) all_ok joined
    = mkOutcome (Normal tt) joined [ConsoleLog ("Received message: " ++ msg_type m)]
  ∧ handle_event (SocketMessage (Decoded m) all_ok) joined
    = mkOutcome (Normal tt) joined [ConsoleLog ("Received message: " ++ msg_type m)].
Proof.
  apply (undecodable_and_unknown_frames
           (mkWs false (mkClosure "room1" None)) all_ok joined (mkMsg "ping" None)).
  - reflexivity.
  - cbn. unfold known_types. rewrite !not_elem_of_cons.
    repeat split; try discriminate. apply not_elem_of_nil.
Defined.

(** C6 fails on the code.  A frame that is not JSON does not end in a
    normal return with a diagnostic: [onmessage] throws, having written
    nothing. *)
Lemma malformed_frame_throws :
  let r := onmessage (mkClosure "room1" None) Malformed all_ok joined in
  (ws_closure <$> ws_current joined) = Some (mkClosure "room1" None)
  ∧ completion r = Throw SyntaxError
  ∧ effects r = []
  ∧ ¬ (completion r = Normal tt ∧ reported (effects r) = true).
Proof.
  vm_compute. repeat split. intros [H _]. discriminate H.
Qed.

(** ** Properties of the store kept by every handler *)

Section Preserves.
Variable I : World → Prop.

Lemma preserves_ret {A} (a : A) : preserves I (ret a).
Proof. intros w Hw. exact Hw. Qed.

Lemma preserves_throw {A} e : preserves I (@throw A e).
Proof. intros w Hw. exact Hw. Qed.

Lemma preserves_emit e : preserves I (emit e).
Proof. intros w Hw. exact Hw. Qed.

Lemma preserves_gets {A} (f : World → A) : preserves I (gets f).
Proof. intros w Hw. exact Hw. Qed.

Lemma preserves_modify f : (∀ w, I w → I (f w)) → preserves I (modify f).
Proof. intros Hf w Hw. apply Hf, Hw. Qed.

Lemma preserves_bind {A B} (m : M A) (f : A → M B) :
  preserves I m → (∀ a, preserves I (f a)) → preserves I (bind m f).
Proof.
  intros Hm Hf w Hw. unfold bind. specialize (Hm w Hw).
  destruct (m w) as [[a|e] w1 es1]; cbn in *; [|exact Hm].
  apply Hf, Hm.
Qed.

Lemma preserves_try_catch {A} (m : M A) h :
  preserves I m → (∀ e, preserves I (h e)) → preserves I (try_catch m h).
Proof.
  intros Hm Hh w Hw. unfold try_catch. specialize (Hm w Hw).
  destruct (m w) as [[a|e] w1 es1]; cbn in *; [exact Hm|].
  apply Hh, Hm.
Qed.

Lemma preserves_forEach {A} (f : A → M unit) xs :
  (∀ x, preserves I (f x)) → preserves I (forEach f xs).
Proof.
  intros Hf. induction xs as [|x xs IH]; cbn [forEach].
  - apply preserves_ret.
  - apply preserves_bind; [apply Hf|intros _; exact IH].
Qed.
End Preserves.

(** Takes a handler apart down to its [modify] steps. *)
Ltac preserve_steps :=
  repeat match goal with
  | |- preserves _ (bind _ _) => apply preserves_bind; [|intros ?]
  | |- preserves _ (try_catch _ _) => apply preserves_try_catch; [|intros ?]
  | |- preserves _ (ret _) => apply preserves_ret
  | |- preserves _ (throw _) => apply preserves_throw
  | |- preserves _ (emit _) => apply preserves_emit
  | |- preserves _ (gets _) => apply preserves_gets
  | |- preserves _ (forEach _ _) => apply preserves_forEach; intros ?
  | |- preserves _ (match ?x with _ => _ end) => destruct x
  | |- preserves _ (modify _) => apply preserves_modify; intros ? ?
  | |- preserves _ (?f _ _ _ _) => unfold f
  | |- preserves _ (?f _ _ _) => unfold f
  | |- preserves _ (?f _ _) => unfold f
  | |- preserves _ (?f _) => unfold f
  | |- preserves _ ?f => unfold f
  end.

Lemma has_socket_update_pc h f w : has_socket w → has_socket (update_pc h f w).
Proof. unfold has_socket. rewrite update_pc_ws. auto. Qed.

Ltac has_socket_step :=
  first [ apply has_socket_update_pc; assumption
        | unfold has_socket in *; cbn; eauto ].

Lemma has_socket_dispatch e : preserves has_socket (dispatch e).
Proof.
  intros w Hw. unfold dispatch.
  destruct e; repeat match goal with
                     | |- context [match ?x with _ => _ end] => destruct x
                     end;
    try exact Hw;
    match goal with
    | |- has_socket (world (?m w)) =>
        cut (preserves has_socket m); [intros Hp; exact (Hp w Hw)|]
    end; preserve_steps; has_socket_step.
Qed.

Lemma no_connection_update_pc h f w : no_connection w → no_connection (update_pc h f w).
Proof.
  unfold no_connection, update_pc. intros H. rewrite H. cbn. exact H.
Qed.

Ltac no_connection_step :=
  first [ apply no_connection_update_pc; assumption
        | unfold no_connection in *; cbn; assumption ].

Lemma no_connection_dispatch e :
  (∀ f o, e ≠ SocketMessage f o) → preserves no_connection (dispatch e).
Proof.
  intros He w Hw. unfold dispatch.
  destruct e; try (exfalso; eapply He; reflexivity);
    repeat match goal with
           | |- context [match ?x with _ => _ end] => destruct x
           end;
    try exact Hw;
    match goal with
    | |- no_connection (world (?m w)) =>
        cut (preserves no_connection m); [intros Hp; exact (Hp w Hw)|]
    end; preserve_steps; no_connection_step.
Qed.

Lemma preserves_handle_event I e :
  preserves I (dispatch e) → preserves I (handle_event e).
Proof.
  intros H. unfold handle_event. apply preserves_try_catch; [exact H|].
  intros ?. apply preserves_emit.
Qed.

Lemma preserves_run I :
  (∀ e, preserves I (handle_event e)) → ∀ es, preserves I (run es).
Proof.
  intros H es. induction es as [|e es IH]; cbn [run].
  - apply preserves_ret.
  - apply preserves_bind; [apply H|intros _; exact IH].
Qed.

Lemma socket_first_handle_event e : preserves socket_first (handle_event e).
Proof.
  intros w [Hn|Hs].
  - destruct e;
      try (left; apply preserves_handle_event;
           [apply no_connection_dispatch; discriminate|exact Hn]).
    destruct (ws_current w) as [s|] eqn:Hws.
    + right. apply preserves_handle_event; [apply has_socket_dispatch|].
      unfold has_socket. rewrite Hws. eauto.
    + left. unfold handle_event, try_catch, dispatch. rewrite Hws. exact Hn.
  - right. apply preserves_handle_event; [apply has_socket_dispatch|exact Hs].
Qed.

Lemma socket_first_run es : socket_first (world (run es initial)).
Proof.
  apply preserves_run; [apply socket_first_handle_event|].
  left. reflexivity.
Qed.

(** ** Local candidates (C10) *)

(** C10.  In every session reached from the initial one, when a peer
    connection of the session fires [onicecandidate], a [candidate]
    envelope carrying the room id the connection was created for and the
    candidate is sent exactly when the candidate is non-null; the
    end-of-gathering event with a null candidate sends nothing.  The
    session is unchanged either way. *)
Theorem candidate_envelope_iff_non_null
    (es : list Event) (h : nat) (p : PeerConnection) (cand : option Candidate) :
  pcs (world (run es initial)) !! h = Some p →
  let w := world (run es initial) in
  let r := onicecandidate (pc_roomId p) cand w in
  r = mkOutcome (Normal tt) w
        match cand with
        | Some c => [WsSend (mkEnv "candidate" (PCandidate (pc_roomId p) c))]
        | None => []
        end
  ∧ (all_sent (effects r) ≠ [] ↔ cand ≠ None)
  ∧ (pc_closed p = false →
     handle_event (IceCandidateFound h cand) w = r).
Proof.
  intros Hp. pose proof (socket_first_run es) as Hsf. cbv zeta.
  set (w := world (run es initial)) in *.
  set (r := onicecandidate (pc_roomId p) cand w).
  assert (Hs : has_socket w).
  { destruct Hsf as [Hn|Hs]; [|exact Hs].
    unfold no_connection in Hn. rewrite Hn in Hp. discriminate Hp. }
  destruct Hs as [s Hs].
  assert (Hr : r = mkOutcome (Normal tt) w
                     match cand with
                     | Some c => [WsSend (mkEnv "candidate" (PCandidate (pc_roomId p) c))]
                     | None => []
                     end).
  { unfold r, onicecandidate. destruct cand as [c|]; [|reflexivity].
    rewrite sendMessage_eq. unfold send_effects. rewrite Hs. reflexivity. }
  split; [exact Hr|]. split.
  - rewrite Hr. destruct cand; cbn; split; congruence.
  - intros Hopen. unfold handle_event, try_catch, dispatch.
    rewrite Hp, Hopen. fold r. rewrite Hr. reflexivity.
Qed.

Lemma candidate_envelope_iff_non_null_witness :
  let p := mkPc false "room1" [] (Some (mkDesc SdpOffer "v=0 offer")) None [] in
  let w := world (run offering_events initial) in
  let r := onicecandidate (pc_roomId p) (Some cand1) w in
  r = mkOutcome (Normal tt) w [WsSend (mkEnv "candidate" (PCandidate "room1" cand1))]
  ∧ (all_sent (effects r) ≠ [] ↔ Some cand1 ≠ None)
  ∧ (pc_closed p = false →
     handle_event (IceCandidateFound 0 (Some cand1)) w = r).
Proof.
  apply (candidate_envelope_iff_non_null offering_events 0
           (mkPc false "room1" [] (Some (mkDesc SdpOffer "v=0 offer")) None [])
           (Some cand1)).
  reflexivity.
Defined.

(** ** Facts about a freshly created connection *)

Lemma live_from_app i l1 l2 :
  live_from i (l1 ++ l2) = live_from i l1 ++ live_from (i + length l1) l2.
Proof.
  revert i. induction l1 as [|p l1 IH]; intros i; cbn.
  - rewrite Nat.add_0_r. reflexivity.
  - rewrite IH. replace (S i + length l1) with (i + S (length l1)) by lia.
    destruct (pc_closed p); reflexivity.
Qed.

Lemma created_live c rid w :
  live_handles (created c rid w) = live_handles (closed_current w) ++ [length (pcs w)].
Proof.
  unfold live_handles, created. cbn [pcs set_pc_current set_pcs].
  rewrite live_from_app. cbn. rewrite closed_current_length. reflexivity.
Qed.

Lemma closed_current_state w :
  (inCall (closed_current w), roomId (closed_current w),
   localStream (closed_current w), remoteStream (closed_current w))
  = (inCall w, roomId w, localStream w, remoteStream w).
Proof.
  unfold closed_current, update_pc.
  destruct (pc_current w) as [h|]; [|reflexivity].
  destruct (pcs w !! h); reflexivity.
Qed.

Lemma created_state c rid w :
  (inCall (created c rid w), roomId (created c rid w),
   localStream (created c rid w), remoteStream (created c rid w))
  = (inCall w, roomId w, localStream w, remoteStream w).
Proof. unfold created. cbn. apply closed_current_state. Qed.

Lemma created_current_pc c rid w :
  current_pc (created c rid w) = Some (mkPc false rid (stream_tracks c) None None []).
Proof. unfold current_pc. rewrite created_pc_current. apply created_lookup. Qed.

Lemma current_pc_update h f w p :
  pc_current w = Some h → pcs w !! h = Some p →
  current_pc (update_pc h f w) = Some (f p).
Proof.
  intros Hc Hp. unfold current_pc. rewrite update_pc_pc_current, Hc.
  apply update_pc_lookup, Hp.
Qed.

Lemma all_sent_app es1 es2 : all_sent (es1 ++ es2) = all_sent es1 ++ all_sent es2.
Proof.
  induction es1 as [|e es1 IH]; [reflexivity|].
  destruct e; cbn; rewrite ?IH; reflexivity.
Qed.

Lemma all_sent_create c w : all_sent (create_effects c w) = [].
Proof.
  unfold create_effects, close_effects. rewrite all_sent_app.
  destruct (pc_current w); cbn; induction (stream_tracks c); cbn; auto.
Qed.

Lemma sent_all_sent t es :
  sent t es = List.filter (λ e, String.eqb (env_type e) t) (all_sent es).
Proof.
  induction es as [|e es IH]; [reflexivity|].
  destruct e; cbn; rewrite ?IH; reflexivity.
Qed.

(** ** A failed offer (C3) *)

(** C3 (as the code has it).  When [createOffer] or [setLocalDescription]
    rejects, [createOffer] catches the error: it returns normally, its last
    output is the [console.error] "Error creating offer:", and no envelope
    is sent.  The session is the one [createPeerConnection] left: the
    connection just created stays in [pc.current] and stays open, and
    [inCall], [roomId] and the streams are as before the call. *)
Theorem createOffer_failure_keeps_handle
    (c : Closure) (rid : string) (o : Oracle) (w : World) :
  o_createOffer o = None ∨ o_setLocalDescription o = false →
  let r := createOffer c rid o w in
  completion r = Normal tt
  ∧ last (effects r) = Some (ConsoleError "Error creating offer:")
  ∧ all_sent (effects r) = []
  ∧ world r = created c rid w
  ∧ pc_current (world r) = Some (length (pcs w))
  ∧ current_pc_live (world r) = true
  ∧ length (pcs w) ∈ live_handles (world r)
  ∧ (inCall (world r), roomId (world r), localStream (world r), remoteStream (world r))
    = (inCall w, roomId w, localStream w, remoteStream w).
Proof.
  intros Hfail. cbv zeta. rewrite createOffer_eq.
  assert (Hw : world (offer_attempt (length (pcs w)) rid o (created c rid w))
               = created c rid w
             ∧ completion (offer_attempt (length (pcs w)) rid o (created c rid w))
               = Normal tt
             ∧ ∃ es, effects (offer_attempt (length (pcs w)) rid o (created c rid w))
                     = es ++ [ConsoleError "Error creating offer:"]
                     ∧ all_sent es = []).
  { unfold offer_attempt. destruct (o_createOffer o) as [sdp|].
    - destruct Hfail as [Hfail|Hfail]; [discriminate Hfail|]. rewrite Hfail.
      repeat split. eexists [_; _]. split; reflexivity.
    - repeat split. eexists [_]. split; reflexivity. }
  destruct Hw as (Hw & Hc & es & He & Hes).
  cbn [prepend completion world effects]. rewrite Hw, Hc, He.
  repeat split.
  - rewrite app_assoc. apply last_snoc.
  - rewrite !all_sent_app. cbn [all_sent]. rewrite all_sent_create, Hes. reflexivity.
  - unfold current_pc_live. rewrite created_current_pc. reflexivity.
  - rewrite created_live. apply elem_of_app. right. apply list_elem_of_here.
  - apply created_state.
Qed.

Lemma createOffer_failure_keeps_handle_witness :
  let r := createOffer (mkClosure "room1" None) "room1" offer_fails joined in
  completion r = Normal tt
  ∧ last (effects r) = Some (ConsoleError "Error creating offer:")
  ∧ all_sent (effects r) = []
  ∧ world r = created (mkClosure "room1" None) "room1" joined
  ∧ pc_current (world r) = Some (length (pcs joined))
  ∧ current_pc_live (world r) = true
  ∧ length (pcs joined) ∈ live_handles (world r)
  ∧ (inCall (world r), roomId (world r), localStream (world r), remoteStream (world r))
    = (inCall joined, roomId joined, localStream joined, remoteStream joined).
Proof.
  apply (createOffer_failure_keeps_handle (mkClosure "room1" None) "room1"
           offer_fails joined).
  left. reflexivity.
Defined.

(** C3 fails on the code.  In a joined session whose browser rejects
    [createOffer], the connection created for the offer is still live after
    the failure and the session is still in the call, not idle. *)
Lemma failed_offer_leaves_live_handle :
  let r := handle_event (SocketMessage (Decoded msg_peer_joined) offer_fails) joined in
  effects r =
    [ConsoleLog "Received message: peer_joined"; ConsoleLog "Creating offer...";
     PcNew 0; PcCreateOffer 0; ConsoleError "Error creating offer:"]
  ∧ live_handles (world r) = [0]
  ∧ inCall (world r) = true
  ∧ is_idle (world r) = false
  ∧ ¬ (live_handles (world r) = [] ∧ is_idle (world r) = true).
Proof.
  vm_compute. repeat split. intros [H _]. discriminate H.
Qed.

(** ** Roles (C7) *)

Lemma offer_attempt_normal h rid o w1 :
  completion (offer_attempt h rid o w1) = Normal tt.
Proof.
  unfold offer_attempt.
  destruct (o_createOffer o), (o_setLocalDescription o); reflexivity.
Qed.

Lemma answer_attempt_normal h sdp rid o w1 :
  completion (answer_attempt h sdp rid o w1) = Normal tt.
Proof.
  unfold answer_attempt.
  destruct (o_setRemoteDescription o), (o_createAnswer o),
    (o_setLocalDescription o); reflexivity.
Qed.

Lemma all_sent_offer_attempt h rid o w1 :
  all_sent (effects (offer_attempt h rid o w1)) =
  match o_createOffer o with
  | Some sdp =>
      if o_setLocalDescription o
      then all_sent (send_effects "offer"
                       (PDescription rid (Some (mkDesc SdpOffer sdp))) w1)
      else []
  | None => []
  end.
Proof.
  unfold offer_attempt.
  destruct (o_createOffer o), (o_setLocalDescription o); reflexivity.
Qed.

Lemma all_sent_answer_attempt h sdp rid o w1 :
  all_sent (effects (answer_attempt h sdp rid o w1)) =
  if o_setRemoteDescription o then
    match o_createAnswer o with
    | Some a =>
        if o_setLocalDescription o
        then all_sent (send_effects "answer"
                         (PDescription rid (Some (mkDesc SdpAnswer a))) w1)
        else []
    | None => []
    end
  else [].
Proof.
  unfold answer_attempt.
  destruct (o_setRemoteDescription o), (o_createAnswer o),
    (o_setLocalDescription o); reflexivity.
Qed.

Lemma event_peer_joined w s o pl :
  ws_current w = Some s →
  handle_event (SocketMessage (Decoded (mkMsg "peer_joined" pl)) o) w =
  prepend [ConsoleLog "Received message: peer_joined"]
    (createOffer (ws_closure s) (cl_roomId (ws_closure s)) o w).
Proof.
  intros Hs. unfold handle_event, try_catch, dispatch.
  rewrite Hs. unfold onmessage. run_m. cbn [msg_type].
  change (dispatch_message (ws_closure s) (mkMsg "peer_joined" pl) o w)
    with (createOffer (ws_closure s) (cl_roomId (ws_closure s)) o w).
  rewrite createOffer_eq.
  pose proof (offer_attempt_normal (length (pcs w)) (cl_roomId (ws_closure s)) o
                (created (ws_closure s) (cl_roomId (ws_closure s)) w)) as Hn.
  destruct (offer_attempt _ _ _ _) as [[[]|e] w2 es2]; cbn in *;
    [reflexivity|discriminate Hn].
Qed.

Lemma event_offer w s o m :
  ws_current w = Some s → msg_type m = "offer" →
  handle_event (SocketMessage (Decoded m) o) w =
  prepend [ConsoleLog "Received message: offer"]
    match usable_sdp m with
    | Some sdp => handleOffer (ws_closure s) sdp (cl_roomId (ws_closure s)) o w
    | None => mkOutcome (Normal tt) w []
    end.
Proof.
  intros Hs Hm. unfold handle_event, try_catch, dispatch. rewrite Hs.
  unfold onmessage. run_m.
  assert (Hd : dispatch_message (ws_closure s) m o w =
               match usable_sdp m with
               | Some sdp => handleOffer (ws_closure s) sdp (cl_roomId (ws_closure s)) o w
               | None => mkOutcome (Normal tt) w []
               end).
  { unfold dispatch_message, usable_sdp, truthy. rewrite Hm.
    cbn [String.eqb Ascii.eqb Bool.eqb].
    destruct (payload_sdp m) as [sdp|]; [|reflexivity].
    destruct (String.eqb sdp ""); reflexivity. }
  rewrite Hd, Hm. destruct (usable_sdp m) as [sdp|]; [|reflexivity].
  rewrite handleOffer_eq.
  pose proof (answer_attempt_normal (length (pcs w)) sdp (cl_roomId (ws_closure s)) o
                (created (ws_closure s) (cl_roomId (ws_closure s)) w)) as Hn.
  destruct (answer_attempt _ _ _ _ _) as [[[]|e] w2 es2]; cbn in *;
    [reflexivity|discriminate Hn].
Qed.

Lemma event_peer_joined_any w s o m :
  ws_current w = Some s → msg_type m = "peer_joined" →
  handle_event (SocketMessage (Decoded m) o) w =
  prepend [ConsoleLog "Received message: peer_joined"]
    (createOffer (ws_closure s) (cl_roomId (ws_closure s)) o w).
Proof.
  intros Hs Hm. destruct m as [ty pl]. cbn in Hm. subst ty.
  apply event_peer_joined, Hs.
Qed.

Lemma reported_create c w : reported (create_effects c w) = false.
Proof.
  unfold create_effects, close_effects. rewrite reported_app.
  destruct (pc_current w); cbn; induction (stream_tracks c); cbn; auto.
Qed.

(** What the [try] block of [createOffer] amounts to on the connection
    just created, in a session with a socket. *)
Lemma offer_attempt_outcome c rid o w s :
  ws_current w = Some s →
  let r := offer_attempt (length (pcs w)) rid o (created c rid w) in
  all_sent (effects r)
    = match offer_succeeds o with
      | Some sdp => [mkEnv "offer" (PDescription rid (Some (mkDesc SdpOffer sdp)))]
      | None => []
      end
  ∧ reported (effects r)
    = match offer_succeeds o with Some _ => false | None => true end
  ∧ negotiation (world r)
    = match offer_succeeds o with Some _ => NOffering | None => NIdle end.
Proof.
  intros Hs. cbv zeta. unfold offer_attempt, offer_succeeds, send_effects.
  rewrite created_ws, Hs.
  destruct (o_createOffer o) as [sdp|]; [destruct (o_setLocalDescription o)|];
    cbn [effects world all_sent reported existsb is_report orb]; repeat split;
    unfold negotiation;
    rewrite ?(current_pc_update _ _ _ _ (created_pc_current _ _ _) (created_lookup _ _ _)),
      ?created_current_pc; reflexivity.
Qed.

(** The same for the [try] block of [handleOffer]. *)
Lemma answer_attempt_outcome c sdp rid o w s :
  ws_current w = Some s →
  let r := answer_attempt (length (pcs w)) sdp rid o (created c rid w) in
  all_sent (effects r)
    = match answer_succeeds o with
      | Some a => [mkEnv "answer" (PDescription rid (Some (mkDesc SdpAnswer a)))]
      | None => []
      end
  ∧ reported (effects r)
    = match answer_succeeds o with Some _ => false | None => true end
  ∧ negotiation (world r)
    = match answer_succeeds o with
      | Some _ => NStable
      | None => if o_setRemoteDescription o then NAnswering else NIdle
      end.
Proof.
  intros Hs. cbv zeta. unfold answer_attempt, answer_succeeds, send_effects.
  rewrite created_ws, Hs.
  pose proof (created_pc_current c rid w) as Hc.
  pose proof (created_lookup c rid w) as Hp.
  assert (Hc2 : ∀ d, pc_current (update_pc (length (pcs w)) (pc_set_remote d)
                                    (created c rid w)) = Some (length (pcs w)))
    by (intros; rewrite update_pc_pc_current; exact Hc).
  destruct (o_setRemoteDescription o);
    [destruct (o_createAnswer o) as [a|]; [destruct (o_setLocalDescription o)|]|];
    cbn [effects world all_sent reported existsb is_report orb]; repeat split;
    unfold negotiation;
    rewrite ?(current_pc_update _ _ _ _ (Hc2 _) (update_pc_lookup _ _ _ _ Hp)),
      ?(current_pc_update _ _ _ _ Hc Hp), ?created_current_pc; reflexivity.
Qed.

(** C7 (as the code has it).  Roles follow from the message received,
    and what is sent follows from the browser.  A session that receives a
    [peer_joined] frame, whatever its payload, takes the offer path: it
    never sends an answer; when the browser's [createOffer] and
    [setLocalDescription] both resolve it sends exactly one envelope, the
    offer for its room, and is then offering; when either rejects it sends
    nothing, the error goes to [console.error], and it is not offering.  A
    session that receives an [offer] frame takes the answer path: it never
    sends an offer; when the frame carries a non-empty sdp and the browser's
    three steps resolve it sends exactly one envelope, the answer for its
    room, and is then stable; when a step rejects it sends nothing and the
    error goes to [console.error]; when the sdp is missing or empty the
    frame is skipped and the session is as before.  So of two sessions fed
    the complementary events, only the one told that a peer joined can
    initiate. *)
Theorem role_by_message_causality
    (wA wB : World) (sA sB : WebSocket) (oA oB : Oracle)
    (mA mB : WebSocketMessage) :
  ws_current wA = Some sA → ws_current wB = Some sB →
  msg_type mA = "peer_joined" → msg_type mB = "offer" →
  let rA := handle_event (SocketMessage (Decoded mA) oA) wA in
  let rB := handle_event (SocketMessage (Decoded mB) oB) wB in
  (all_sent (effects rA)
     = match offer_succeeds oA with
       | Some sdp => [mkEnv "offer" (PDescription (cl_roomId (ws_closure sA))
                                       (Some (mkDesc SdpOffer sdp)))]
       | None => []
       end
   ∧ reported (effects rA)
     = match offer_succeeds oA with Some _ => false | None => true end
   ∧ negotiation (world rA)
     = match offer_succeeds oA with Some _ => NOffering | None => NIdle end
   ∧ sent "answer" (effects rA) = [])
  ∧ (all_sent (effects rB)
       = match usable_sdp mB, answer_succeeds oB with
         | Some _, Some a =>
             [mkEnv "answer" (PDescription (cl_roomId (ws_closure sB))
                                (Some (mkDesc SdpAnswer a)))]
         | _, _ => []
         end
     ∧ reported (effects rB)
       = match usable_sdp mB, answer_succeeds oB with
         | Some _, None => true
         | _, _ => false
         end
     ∧ match usable_sdp mB with
       | Some _ =>
           negotiation (world rB)
           = match answer_succeeds oB with
             | Some _ => NStable
             | None => if o_setRemoteDescription oB then NAnswering else NIdle
             end
       | None => world rB = wB
       end
     ∧ sent "offer" (effects rB) = []).
Proof.
  intros HsA HsB HmA HmB. cbv zeta. split.
  - rewrite (event_peer_joined_any _ _ _ _ HsA HmA), createOffer_eq.
    destruct (offer_attempt_outcome (ws_closure sA) (cl_roomId (ws_closure sA)) oA wA sA HsA)
      as (H1 & H2 & H3).
    cbn [prepend effects world app].
    rewrite sent_all_sent. cbn [all_sent reported existsb is_report orb].
    rewrite all_sent_app, all_sent_create.
    change (existsb is_report ?l) with (reported l).
    rewrite reported_app, reported_create, H1, H2, H3.
    repeat split. destruct (offer_succeeds oA); reflexivity.
  - rewrite (event_offer _ _ _ _ HsB HmB).
    destruct (usable_sdp mB) as [sdp|]; [|repeat split].
    rewrite handleOffer_eq.
    destruct (answer_attempt_outcome (ws_closure sB) sdp (cl_roomId (ws_closure sB)) oB wB sB HsB)
      as (H1 & H2 & H3).
    cbn [prepend effects world app].
    rewrite sent_all_sent. cbn [all_sent reported existsb is_report orb].
    rewrite all_sent_app, all_sent_create.
    change (existsb is_report ?l) with (reported l).
    rewrite reported_app, reported_create, H1, H2, H3.
    repeat split; destruct (answer_succeeds oB); reflexivity.
Qed.

Lemma role_by_message_causality_witness :
  let s := mkWs false (mkClosure "room1" None) in
  let mA := relayed_peer_joined "room1" in
  let mB := relayed_offer "room1" "v=0 offer" in
  let rA := handle_event (SocketMessage (Decoded mA) all_ok) joined in
  let rB := handle_event (SocketMessage (Decoded mB) all_ok) joined in
  (all_sent (effects rA)
     = match offer_succeeds all_ok with
       | Some sdp => [mkEnv "offer" (PDescription (cl_roomId (ws_closure s))
                                       (Some (mkDesc SdpOffer sdp)))]
       | None => []
       end
   ∧ reported (effects rA)
     = match offer_succeeds all_ok with Some _ => false | None => true end
   ∧ negotiation (world rA)
     = match offer_succeeds all_ok with Some _ => NOffering | None => NIdle end
   ∧ sent "answer" (effects rA) = [])
  ∧ (all_sent (effects rB)
       = match usable_sdp mB, answer_succeeds all_ok with
         | Some _, Some a =>
             [mkEnv "answer" (PDescription (cl_roomId (ws_closure s))
                                (Some (mkDesc SdpAnswer a)))]
         | _, _ => []
         end
     ∧ reported (effects rB)
       = match usable_sdp mB, answer_succeeds all_ok with
         | Some _, None => true
         | _, _ => false
         end
     ∧ match usable_sdp mB with
       | Some _ =>
           negotiation (world rB)
           = match answer_succeeds all_ok with
             | Some _ => NStable
             | None => if o_setRemoteDescription all_ok then NAnswering else NIdle
             end
       | None => world rB = joined
       end
     ∧ sent "offer" (effects rB) = []).
Proof.
  apply (role_by_message_causality joined joined
           (mkWs false (mkClosure "room1" None)) (mkWs false (mkClosure "room1" None))
           all_ok all_ok (relayed_peer_joined "room1")
           (relayed_offer "room1" "v=0 offer"));
    reflexivity.
Defined.

(** C7 fails on the code.  In a joined session whose browser rejects
    [createOffer], a [peer_joined] frame makes the session send no envelope
    at all: it does not emit exactly one offer and it is not offering
    afterwards.  Likewise an [offer] frame whose sdp is empty is skipped:
    no answer is sent. *)
Lemma peer_joined_without_offer :
  let rA := handle_event (SocketMessage (Decoded (relayed_peer_joined "room1")) offer_fails)
              joined in
  let rB := handle_event (SocketMessage (Decoded (relayed_offer "room1" "")) all_ok)
              joined in
  all_sent (effects rA) = []
  ∧ negotiation (world rA) = NIdle
  ∧ length (sent "offer" (effects rA)) ≠ 1
  ∧ all_sent (effects rB) = []
  ∧ length (sent "answer" (effects rB)) ≠ 1.
Proof. vm_compute. repeat split; discriminate. Qed.

(** ** One live connection (C4) *)

Lemma replay_app es1 es2 L : replay (es1 ++ es2) L = replay es2 (replay es1 L).
Proof. revert L. induction es1 as [|e es1 IH]; intros L; cbn; auto. Qed.

Lemma single_throughout_head es L :
  single_throughout es L = Nat.leb (length L) 1 && single_throughout es L.
Proof. destruct es; cbn; destruct (Nat.leb (length L) 1); reflexivity. Qed.

Lemma single_throughout_app es1 es2 L :
  single_throughout (es1 ++ es2) L
  = single_throughout es1 L && single_throughout es2 (replay es1 L).
Proof.
  revert L. induction es1 as [|e es1 IH]; intros L.
  - cbn. rewrite andb_true_r. apply single_throughout_head.
  - cbn. rewrite IH. rewrite andb_assoc. reflexivity.
Qed.

Lemma filter_all {A} (P : A → Prop) `{∀ x, Decision (P x)} (l : list A) :
  (∀ x, x ∈ l → P x) → filter P l = l.
Proof.
  induction l as [|x l IH]; intros Hall; [reflexivity|].
  rewrite filter_cons_True by (apply Hall, list_elem_of_here).
  rewrite IH; [reflexivity|]. intros y Hy. apply Hall, list_elem_of_further, Hy.
Qed.

Lemma live_from_bounds i l x :
  x ∈ live_from i l → (i ≤ x ∧ x < i + length l)%nat.
Proof.
  revert i. induction l as [|p l IH]; intros i Hx; cbn in Hx.
  - apply elem_of_nil in Hx. destruct Hx.
  - cbn [length]. destruct (pc_closed p).
    + apply IH in Hx. lia.
    + apply elem_of_cons in Hx as [->|Hx]; [lia|]. apply IH in Hx. lia.
Qed.

Lemma live_from_insert_flag i l h p q :
  l !! h = Some p → pc_closed q = pc_closed p →
  live_from i (<[h := q]> l) = live_from i l.
Proof.
  revert i h. induction l as [|x l IH]; intros i h Hp Hq; [discriminate Hp|].
  destruct h as [|h].
  - injection Hp as ->. cbn. rewrite Hq. reflexivity.
  - change (<[S h := q]> (x :: l)) with (x :: <[h := q]> l).
    cbn [live_from]. rewrite (IH (S i) h Hp Hq). reflexivity.
Qed.

Lemma live_from_insert_close i l h p :
  l !! h = Some p →
  live_from i (<[h := pc_close p]> l) = filter (λ x, x ≠ i + h) (live_from i l).
Proof.
  revert i h. induction l as [|x l IH]; intros i h Hp; [discriminate Hp|].
  destruct h as [|h].
  - injection Hp as ->. rewrite Nat.add_0_r.
    change (<[0 := pc_close p]> (p :: l)) with (pc_close p :: l).
    cbn [live_from pc_close pc_closed].
    assert (Hrest : filter (λ y, y ≠ i) (live_from (S i) l) = live_from (S i) l).
    { apply filter_all. intros y Hy. apply live_from_bounds in Hy. lia. }
    destruct (pc_closed p); [symmetry; exact Hrest|].
    rewrite filter_cons_False by (intros Hne; apply Hne; reflexivity).
    symmetry; exact Hrest.
  - change (<[S h := pc_close p]> (x :: l)) with (x :: <[h := pc_close p]> l).
    cbn [live_from].
    rewrite (IH (S i) h Hp). replace (i + S h) with (S i + h) by lia.
    destruct (pc_closed x); [reflexivity|].
    rewrite filter_cons_True by lia. reflexivity.
Qed.

Lemma live_update_flag h f w :
  (∀ p, pc_closed (f p) = pc_closed p) →
  live_handles (update_pc h f w) = live_handles w.
Proof.
  intros Hf. unfold live_handles, update_pc.
  destruct (pcs w !! h) as [p|] eqn:Hp; [|reflexivity].
  cbn. apply (live_from_insert_flag _ _ _ p); auto.
Qed.

Lemma live_update_close h w :
  live_handles (update_pc h pc_close w) = filter (λ x, x ≠ h) (live_handles w).
Proof.
  unfold live_handles, update_pc.
  destruct (pcs w !! h) as [p|] eqn:Hp.
  - cbn. apply (live_from_insert_close 0 _ _ _ Hp).
  - symmetry. apply filter_all. intros y Hy. apply live_from_bounds in Hy.
    apply lookup_ge_None in Hp. lia.
Qed.

Lemma single_length w : single w → Nat.leb (length (live_handles w)) 1 = true.
Proof. intros [H|(h & _ & H)]; rewrite H; reflexivity. Qed.

Lemma closed_current_live w : single w → live_handles (closed_current w) = [].
Proof.
  intros Hs. unfold closed_current.
  destruct (pc_current w) as [h|] eqn:Hc.
  - rewrite live_update_close.
    destruct Hs as [H|(h' & Hc' & H)]; rewrite H; [reflexivity|].
    rewrite Hc in Hc'. injection Hc' as ->.
    rewrite filter_cons_False by (intros Hne; apply Hne; reflexivity).
    reflexivity.
  - destruct Hs as [H|(h' & Hc' & _)]; [exact H|]. rewrite Hc in Hc'. discriminate Hc'.
Qed.

Lemma closed_current_replay w :
  replay (close_effects w) (live_handles w) = live_handles (closed_current w).
Proof.
  unfold close_effects, closed_current.
  destruct (pc_current w) as [h|]; [|reflexivity].
  cbn. symmetry. apply live_update_close.
Qed.

Lemma traced_ret {A} (a : A) : traced (ret a).
Proof.
  intros w Hw. cbn. rewrite (single_length w Hw). auto.
Qed.

Lemma traced_throw {A} e : traced (@throw A e).
Proof.
  intros w Hw. cbn. rewrite (single_length w Hw). auto.
Qed.

Lemma traced_gets {A} (f : World → A) : traced (gets f).
Proof.
  intros w Hw. cbn. rewrite (single_length w Hw). auto.
Qed.

Lemma traced_emit e : (∀ L, replay1 e L = L) → traced (emit e).
Proof.
  intros He w Hw. cbn. rewrite He, (single_length w Hw). auto.
Qed.

Lemma traced_modify f :
  (∀ w, live_handles (f w) = live_handles w ∧ pc_current (f w) = pc_current w) →
  traced (modify f).
Proof.
  intros Hf w Hw. destruct (Hf w) as [Hl Hc]. cbn.
  rewrite (single_length w Hw), Hl. repeat split.
  unfold single. rewrite Hl, Hc. exact Hw.
Qed.

Lemma traced_bind {A B} (m : M A) (f : A → M B) :
  traced m → (∀ a, traced (f a)) → traced (bind m f).
Proof.
  intros Hm Hf w Hw. unfold bind. destruct (Hm w Hw) as (H1 & H2 & H3).
  destruct (m w) as [[a|e] w1 es1]; cbn in *; [|auto].
  destruct (Hf a w1 H1) as (G1 & G2 & G3).
  rewrite replay_app, single_throughout_app, H2, H3, G3. auto.
Qed.

Lemma traced_try_catch {A} (m : M A) h :
  traced m → (∀ e, traced (h e)) → traced (try_catch m h).
Proof.
  intros Hm Hh w Hw. unfold try_catch. destruct (Hm w Hw) as (H1 & H2 & H3).
  destruct (m w) as [[a|e] w1 es1]; cbn in *; [auto|].
  destruct (Hh e w1 H1) as (G1 & G2 & G3).
  rewrite replay_app, single_throughout_app, H2, H3, G3. auto.
Qed.

Lemma traced_forEach {A} (f : A → M unit) xs :
  (∀ x, traced (f x)) → traced (forEach f xs).
Proof.
  intros Hf. induction xs as [|x xs IH]; cbn [forEach].
  - apply traced_ret.
  - apply traced_bind; [apply Hf|intros _; exact IH].
Qed.

Lemma traced_pc_current_close : traced pc_current_close.
Proof.
  intros w Hw. rewrite pc_current_close_eq. cbn [world effects].
  pose proof (closed_current_live w Hw) as Hl.
  rewrite closed_current_replay, Hl. repeat split.
  - left. exact Hl.
  - unfold close_effects. destruct (pc_current w) as [h|]; cbn.
    + rewrite (single_length w Hw).
      destruct Hw as [H|(h' & _ & H)]; rewrite H; cbn.
      * reflexivity.
      * destruct (decide (h' ≠ h)); reflexivity.
    + rewrite (single_length w Hw). reflexivity.
Qed.

Lemma replay_add_tracks n ts L : replay (map (PcAddTrack n) ts) L = L.
Proof. induction ts; cbn; auto. Qed.

Lemma single_throughout_add_tracks n ts L :
  single_throughout (map (PcAddTrack n) ts) L = Nat.leb (length L) 1.
Proof.
  induction ts as [|t ts IH]; cbn.
  - apply andb_true_r.
  - rewrite IH. apply andb_diag.
Qed.

Lemma traced_createPeerConnection c rid : traced (createPeerConnection c rid).
Proof.
  intros w Hw. rewrite createPeerConnection_eq. cbn [world effects].
  pose proof (closed_current_live w Hw) as Hl.
  destruct (traced_pc_current_close w Hw) as (_ & _ & Hclose).
  rewrite pc_current_close_eq in Hclose. cbn [effects] in Hclose.
  rewrite created_live, Hl. cbn [app].
  rewrite replay_app, single_throughout_app, closed_current_replay, Hl, Hclose.
  cbn. rewrite replay_add_tracks, single_throughout_add_tracks.
  repeat split. right. exists (length (pcs w)).
  rewrite created_live, Hl. auto.
Qed.

(** Takes a handler apart down to its steps on the connection store. *)
Ltac traced_steps :=
  repeat match goal with
  | |- traced (createPeerConnection _ _) => apply traced_createPeerConnection
  | |- traced pc_current_close => apply traced_pc_current_close
  | |- traced (bind _ _) => apply traced_bind; [|intros ?]
  | |- traced (try_catch _ _) => apply traced_try_catch; [|intros ?]
  | |- traced (ret _) => apply traced_ret
  | |- traced (throw _) => apply traced_throw
  | |- traced (emit _) => apply traced_emit; intros ?; reflexivity
  | |- traced (gets _) => apply traced_gets
  | |- traced (forEach _ _) => apply traced_forEach; intros ?
  | |- traced (match ?x with _ => _ end) => destruct x
  | |- traced (modify _) =>
      apply traced_modify; intros ?;
      split; [first [apply live_update_flag; intros; reflexivity | reflexivity]
             |first [apply update_pc_pc_current | reflexivity]]
  | |- traced (?f _ _ _ _) => unfold f
  | |- traced (?f _ _ _) => unfold f
  | |- traced (?f _ _) => unfold f
  | |- traced (?f _) => unfold f
  | |- traced ?f => unfold f
  end.

Lemma traced_dispatch e : traced (dispatch e).
Proof.
  intros w Hw. unfold dispatch.
  destruct e; repeat match goal with
                     | |- context [match ?x with _ => _ end] => destruct x
                     end;
    match goal with
    | |- context [world (?m w)] =>
        cut (traced m); [intros Hp; exact (Hp w Hw)|]
    end; traced_steps.
Qed.

Lemma traced_handle_event e : traced (handle_event e).
Proof.
  unfold handle_event. apply traced_try_catch; [apply traced_dispatch|].
  intros ?. apply traced_emit. intros ?. reflexivity.
Qed.

Lemma traced_run es : traced (run es).
Proof.
  induction es as [|e es IH]; cbn [run].
  - apply traced_ret.
  - apply traced_bind; [apply traced_handle_event|intros _; exact IH].
Qed.

(** C4.  Along every sequence of events from the initial session, at most
    one peer connection is live: replaying the recorded [new
    RTCPeerConnection] and [close] calls, never more than one handle is open
    after any step, and what is open at the end is what the store holds open,
    which is nothing or exactly the connection in [pc.current].  Whenever
    [createPeerConnection] runs in such a session it first closes the
    connection in [pc.current], if any, and only then creates the new one,
    which is afterwards the only live connection. *)
Theorem single_live_handle (es : list Event) :
  let r := run es initial in
  single_throughout (effects r) [] = true
  ∧ replay (effects r) [] = live_handles (world r)
  ∧ (length (live_handles (world r)) ≤ 1)%nat
  ∧ (live_handles (world r) = []
     ∨ ∃ h, pc_current (world r) = Some h ∧ live_handles (world r) = [h])
  ∧ ∀ c rid,
      let r' := createPeerConnection c rid (world r) in
      effects r' =
        match pc_current (world r) with Some h => [PcClose h] | None => [] end
        ++ PcNew (length (pcs (world r)))
           :: map (PcAddTrack (length (pcs (world r)))) (stream_tracks c)
      ∧ pc_current (world r') = Some (length (pcs (world r)))
      ∧ live_handles (world r') = [length (pcs (world r))].
Proof.
  cbv zeta.
  assert (Hinit : single initial) by (left; reflexivity).
  destruct (traced_run es initial Hinit) as (Hs & Hr & Ht).
  change (live_handles initial) with (@nil nat) in *.
  split; [exact Ht|]. split; [exact Hr|].
  split; [apply Nat.leb_le, single_length, Hs|].
  split; [exact Hs|].
  intros c rid. rewrite createPeerConnection_eq. cbn [effects world].
  split; [reflexivity|]. split; [reflexivity|].
  rewrite created_live, (closed_current_live _ Hs). reflexivity.
Qed.

(** ** What handlers record and how they end *)

Section EmitsOnly.
Variable P : Effect → Prop.

Lemma emits_ret {A} (a : A) : emits_only P (ret a).
Proof. intros w. constructor. Qed.

Lemma emits_throw {A} e : emits_only P (@throw A e).
Proof. intros w. constructor. Qed.

Lemma emits_gets {A} (f : World → A) : emits_only P (gets f).
Proof. intros w. constructor. Qed.

Lemma emits_modify f : emits_only P (modify f).
Proof. intros w. constructor. Qed.

Lemma emits_emit e : P e → emits_only P (emit e).
Proof. intros He w. cbn. constructor; [exact He|constructor]. Qed.

Lemma emits_bind {A B} (m : M A) (f : A → M B) :
  emits_only P m → (∀ a, emits_only P (f a)) → emits_only P (bind m f).
Proof.
  intros Hm Hf w. unfold bind. specialize (Hm w).
  destruct (m w) as [[a|e] w1 es1]; cbn in *; [|exact Hm].
  apply Forall_app. split; [exact Hm|apply Hf].
Qed.

Lemma emits_try_catch {A} (m : M A) h :
  emits_only P m → (∀ e, emits_only P (h e)) → emits_only P (try_catch m h).
Proof.
  intros Hm Hh w. unfold try_catch. specialize (Hm w).
  destruct (m w) as [[a|e] w1 es1]; cbn in *; [exact Hm|].
  apply Forall_app. split; [exact Hm|apply Hh].
Qed.

Lemma emits_forEach {A} (f : A → M unit) xs :
  (∀ x, emits_only P (f x)) → emits_only P (forEach f xs).
Proof.
  intros Hf. induction xs as [|x xs IH]; cbn [forEach].
  - apply emits_ret.
  - apply emits_bind; [apply Hf|intros _; exact IH].
Qed.
End EmitsOnly.

(** Takes a handler apart down to the effects it records; what is left
    are the effects the property excludes. *)
Ltac emits_steps :=
  repeat match goal with
  | |- emits_only _ (bind _ _) => apply emits_bind; [|intros ?]
  | |- emits_only _ (try_catch _ _) => apply emits_try_catch; [|intros ?]
  | |- emits_only _ (ret _) => apply emits_ret
  | |- emits_only _ (throw _) => apply emits_throw
  | |- emits_only _ (gets _) => apply emits_gets
  | |- emits_only _ (modify _) => apply emits_modify
  | |- emits_only _ (emit _) => apply emits_emit; exact I
  | |- emits_only _ (forEach _ _) => apply emits_forEach; intros ?
  | |- emits_only _ (match ?x with _ => _ end) => destruct x
  | |- emits_only _ (?f _ _ _ _) => unfold f
  | |- emits_only _ (?f _ _ _) => unfold f
  | |- emits_only _ (?f _ _) => unfold f
  | |- emits_only _ (?f _) => unfold f
  | |- emits_only _ ?f => unfold f
  end.

Lemma returns_ret {A} (a : A) : returns (ret a).
Proof. intros w. eexists. reflexivity. Qed.

Lemma returns_emit e : returns (emit e).
Proof. intros w. eexists. reflexivity. Qed.

Lemma returns_gets {A} (f : World → A) : returns (gets f).
Proof. intros w. eexists. reflexivity. Qed.

Lemma returns_modify f : returns (modify f).
Proof. intros w. eexists. reflexivity. Qed.

Lemma returns_bind {A B} (m : M A) (f : A → M B) :
  returns m → (∀ a, returns (f a)) → returns (bind m f).
Proof.
  intros Hm Hf w. unfold bind. destruct (Hm w) as [a Ha].
  destruct (m w) as [[a'|e] w1 es1]; cbn in *; [|discriminate Ha].
  apply Hf.
Qed.

(** A [try] whose [catch] block ends normally ends normally, whatever
    the body does. *)
Lemma returns_try_catch {A} (m : M A) h :
  (∀ e, returns (h e)) → returns (try_catch m h).
Proof.
  intros Hh w. unfold try_catch.
  destruct (m w) as [[a|e] w1 es1]; cbn; [eexists; reflexivity|].
  apply Hh.
Qed.

Lemma returns_forEach {A} (f : A → M unit) xs :
  (∀ x, returns (f x)) → returns (forEach f xs).
Proof.
  intros Hf. induction xs as [|x xs IH]; cbn [forEach].
  - apply returns_ret.
  - apply returns_bind; [apply Hf|intros _; exact IH].
Qed.

Ltac returns_steps :=
  repeat match goal with
  | |- returns (bind _ _) => apply returns_bind; [|intros ?]
  | |- returns (try_catch _ _) => apply returns_try_catch; intros ?
  | |- returns (ret _) => apply returns_ret
  | |- returns (gets _) => apply returns_gets
  | |- returns (modify _) => apply returns_modify
  | |- returns (emit _) => apply returns_emit
  | |- returns (forEach _ _) => apply returns_forEach; intros ?
  | |- returns (match ?x with _ => _ end) => destruct x
  | |- returns (?f _ _ _ _) => unfold f
  | |- returns (?f _ _ _) => unfold f
  | |- returns (?f _ _) => unfold f
  | |- returns (?f _) => unfold f
  | |- returns ?f => unfold f
  end.

Lemma returns_unit (m : M unit) w : returns m → completion (m w) = Normal tt.
Proof. intros H. destruct (H w) as [[] Ha]. exact Ha. Qed.

Lemma all_sent_none es : Forall not_send es → all_sent es = [].
Proof.
  induction 1 as [|e es He _ IH]; [reflexivity|].
  destruct e; cbn in *; auto. destruct He.
Qed.

Lemma attached_none es : Forall not_addTrack es → attached es = [].
Proof.
  induction 1 as [|e es He _ IH]; [reflexivity|].
  destruct e; cbn in *; auto. destruct He.
Qed.

Lemma track_stops_none es : Forall not_trackStop es → track_stops es = [].
Proof.
  induction 1 as [|e es He _ IH]; [reflexivity|].
  destruct e; cbn in *; auto. destruct He.
Qed.

Lemma emits_handleJoinRoom c o : emits_only not_send (handleJoinRoom c o).
Proof. emits_steps. Qed.

Lemma emits_handleHangUp c : emits_only not_send (handleHangUp c).
Proof. emits_steps. Qed.

Lemma emits_handleAnswer sdp o : emits_only not_send (handleAnswer sdp o).
Proof. emits_steps. Qed.

Lemma emits_handleCandidate cand o : emits_only not_send (handleCandidate cand o).
Proof. emits_steps. Qed.

Lemma emits_try_catch_at {A} P (m : M A) h w :
  Forall P (effects (m w)) → (∀ e, emits_only P (h e)) →
  Forall P (effects (try_catch m h w)).
Proof.
  intros Hm Hh. unfold try_catch.
  destruct (m w) as [[a|e] w1 es1]; cbn in *; [exact Hm|].
  apply Forall_app. split; [exact Hm|apply Hh].
Qed.

Lemma emits_at {A} P (m : M A) w : emits_only P m → Forall P (effects (m w)).
Proof. intros H. apply H. Qed.

Lemma handle_event_normal e w : completion (handle_event e w) = Normal tt.
Proof.
  apply returns_unit. unfold handle_event. apply returns_try_catch.
  intros ?. apply returns_emit.
Qed.

Lemma run_cons e es w :
  run (e :: es) w =
  prepend (effects (handle_event e w)) (run es (world (handle_event e w))).
Proof.
  cbn [run]. unfold bind. pose proof (handle_event_normal e w) as Hn.
  destruct (handle_event e w) as [[[]|err] w1 es1]; cbn in *;
    [reflexivity|discriminate Hn].
Qed.

Lemma run_nil w : run [] w = mkOutcome (Normal tt) w [].
Proof. reflexivity. Qed.

(** ** Sending needs a socket *)

Lemma dispatch_without_socket e w :
  ws_current w = None → Forall not_send (effects (dispatch e w)).
Proof.
  intros Hws. unfold dispatch. destruct e; rewrite ?Hws;
    repeat match goal with
           | |- context [match ?x with _ => _ end] => destruct x
           end;
    try (constructor; fail).
  - apply emits_at. emits_steps.
  - apply emits_handleJoinRoom.
  - apply emits_handleHangUp.
  - unfold onicecandidate. destruct c; [|constructor].
    rewrite sendMessage_eq. unfold send_effects. rewrite Hws. constructor.
  - apply emits_at. emits_steps.
  - apply emits_at. emits_steps.
Qed.

(** X1.  While the session has no socket ([ws.current] is null), no event
    makes the component send anything: [sendMessage] drops the message
    silently.  In particular pressing Join sends nothing by itself. *)
Theorem nothing_sent_without_socket (e : Event) (w : World) :
  ws_current w = None →
  all_sent (effects (handle_event e w)) = [].
Proof.
  intros Hws. apply all_sent_none. unfold handle_event.
  apply emits_try_catch_at; [apply dispatch_without_socket, Hws|].
  intros ?. emits_steps.
Qed.

Lemma nothing_sent_without_socket_witness :
  all_sent (effects (handle_event
                       (IceCandidateFound 0 (Some cand1))
                       (set_ws_current None offering))) = [].
Proof.
  apply (nothing_sent_without_socket
           (IceCandidateFound 0 (Some cand1)) (set_ws_current None offering)).
  reflexivity.
Defined.

(** ** Joining *)

Lemma handleJoinRoom_eq c o w :
  cl_roomId c ≠ "" →
  handleJoinRoom c o w =
  match o_getUserMedia o with
  | Some stream =>
      mkOutcome (Normal tt)
        (set_ws_current (Some (mkWs false c))
           (set_inCall true (set_localStream (Some stream) w)))
        [GetUserMedia; SetLocalStream (Some stream); SetInCall true;
         WsNew signaling_url]
  | None =>
      mkOutcome (Normal tt) w
        [GetUserMedia; ConsoleError "Error accessing media devices."]
  end.
Proof.
  intros Hc. apply String.eqb_neq in Hc. unfold handleJoinRoom. rewrite Hc.
  run_m. destruct (o_getUserMedia o); reflexivity.
Qed.

(** X2.  When [getUserMedia] rejects, pressing Join with a room id typed
    in only requests the media and logs "Error accessing media devices.":
    the session is exactly as before, so it is still not in a call, the
    room id is kept, no socket was created and nothing was sent. *)
Theorem join_media_denied (o : Oracle) (w : World) :
  inCall w = false → roomId w ≠ "" → o_getUserMedia o = None →
  handle_event (ClickJoin o) w =
  mkOutcome (Normal tt) w
    [GetUserMedia; ConsoleError "Error accessing media devices."].
Proof.
  intros Hin Hroom Ho. unfold handle_event, try_catch, dispatch. rewrite Hin.
  rewrite handleJoinRoom_eq by exact Hroom. rewrite Ho. reflexivity.
Qed.

Lemma join_media_denied_witness :
  handle_event (ClickJoin media_denied) (set_roomId "room1" initial) =
  mkOutcome (Normal tt) (set_roomId "room1" initial)
    [GetUserMedia; ConsoleError "Error accessing media devices."].
Proof.
  apply (join_media_denied media_denied (set_roomId "room1" initial));
    [reflexivity|discriminate|reflexivity].
Defined.

(** X3.  Typing a non-empty room id, pressing Join with media granted and
    letting the socket open sends exactly one envelope, [join_room] with
    that room id, and it goes out on open, not on the click.  The session
    is then in the call, holds the granted stream, and has a socket whose
    handlers belong to the render of the click: that room id and no local
    stream. *)
Theorem join_sends_join_room_on_open (s : string) (o : Oracle) (stream : MediaStream) :
  s ≠ "" → o_getUserMedia o = Some stream →
  let clicked := run [TypeRoomId s; ClickJoin o] initial in
  let opened := run [TypeRoomId s; ClickJoin o; SocketOpen] initial in
  all_sent (effects clicked) = []
  ∧ all_sent (effects opened) = [mkEnv "join_room" (PJoin s)]
  ∧ world opened = world clicked
  ∧ world opened =
    mkWorld s true (Some stream) None
      (Some (mkWs false (mkClosure s None))) None [] ∅.
Proof.
  intros Hs Ho. cbv zeta.
  assert (Hj : handle_event (ClickJoin o) (set_roomId s initial) =
               mkOutcome (Normal tt)
                 (mkWorld s true (Some stream) None
                    (Some (mkWs false (mkClosure s None))) None [] ∅)
                 [GetUserMedia; SetLocalStream (Some stream); SetInCall true;
                  WsNew signaling_url]).
  { unfold handle_event, try_catch, dispatch. cbn [inCall set_roomId initial].
    rewrite handleJoinRoom_eq by exact Hs. rewrite Ho. reflexivity. }
  assert (Ht : handle_event (TypeRoomId s) initial
               = mkOutcome (Normal tt) (set_roomId s initial) [SetRoomId s])
    by reflexivity.
  rewrite !run_cons, !run_nil, Ht. cbn [world effects]. rewrite Hj.
  repeat split.
Qed.

Lemma join_sends_join_room_on_open_witness :
  let clicked := run [TypeRoomId "room1"; ClickJoin all_ok] initial in
  let opened := run [TypeRoomId "room1"; ClickJoin all_ok; SocketOpen] initial in
  all_sent (effects clicked) = []
  ∧ all_sent (effects opened) = [mkEnv "join_room" (PJoin "room1")]
  ∧ world opened = world clicked
  ∧ world opened =
    mkWorld "room1" true (Some (mkStream 0 [0; 1])) None
      (Some (mkWs false (mkClosure "room1" None))) None [] ∅.
Proof.
  apply (join_sends_join_room_on_open "room1" all_ok (mkStream 0 [0; 1]));
    [discriminate|reflexivity].
Defined.

(** ** A failed answer *)

Lemma react_state_update_pc h f w : react_state (update_pc h f w) = react_state w.
Proof. unfold update_pc. destruct (pcs w !! h); reflexivity. Qed.

Lemma react_state_closed_current w : react_state (closed_current w) = react_state w.
Proof.
  unfold closed_current. destruct (pc_current w); [apply react_state_update_pc|reflexivity].
Qed.

Lemma react_state_created c rid w : react_state (created c rid w) = react_state w.
Proof. unfold created. apply react_state_closed_current. Qed.

Lemma current_pc_live_update h f w p :
  pc_current w = Some h → pcs w !! h = Some p →
  current_pc_live (update_pc h f w) = negb (pc_closed (f p)).
Proof.
  intros Hc Hp. unfold current_pc_live.
  rewrite (current_pc_update _ _ _ _ Hc Hp). reflexivity.
Qed.

(** X4.  When any browser step of [handleOffer] rejects
    ([setRemoteDescription], [createAnswer] or [setLocalDescription]), the
    error is caught: the handler returns normally, its last output is the
    [console.error] "Error handling offer:", and no envelope is sent.  The
    connection created for the offer stays in [pc.current] and stays open,
    without a local description, and with the remote offer applied exactly
    when [setRemoteDescription] had succeeded; the React state is
    untouched. *)
Theorem handleOffer_failure_keeps_handle
    (c : Closure) (sdp rid : string) (o : Oracle) (w : World) :
  o_setRemoteDescription o = false ∨ o_createAnswer o = None
    ∨ o_setLocalDescription o = false →
  let r := handleOffer c sdp rid o w in
  completion r = Normal tt
  ∧ last (effects r) = Some (ConsoleError "Error handling offer:")
  ∧ all_sent (effects r) = []
  ∧ pc_current (world r) = Some (length (pcs w))
  ∧ current_pc_live (world r) = true
  ∧ (pc_localDescription <$> current_pc (world r)) = Some None
  ∧ (pc_remoteDescription <$> current_pc (world r))
    = Some (if o_setRemoteDescription o then Some (mkDesc SdpOffer sdp) else None)
  ∧ react_state (world r) = react_state w.
Proof.
  intros Hfail. cbv zeta. rewrite handleOffer_eq.
  pose proof (created_pc_current c rid w) as Hc.
  pose proof (created_lookup c rid w) as Hp.
  pose proof (created_current_pc c rid w) as Hcur.
  pose proof (react_state_created c rid w) as Hst.
  set (w1 := created c rid w) in *.
  set (pre := ConsoleLog "Handling offer..." :: create_effects c w).
  assert (Hpre : all_sent pre = []) by apply all_sent_create.
  unfold answer_attempt.
  destruct (o_setRemoteDescription o) eqn:Hr.
  - destruct (o_createAnswer o) as [a|] eqn:Ha.
    + destruct (o_setLocalDescription o) eqn:Hl.
      * destruct Hfail as [H|[H|H]]; discriminate H.
      * cbn [prepend completion world effects].
        rewrite update_pc_pc_current, (current_pc_live_update _ _ _ _ Hc Hp),
          (current_pc_update _ _ _ _ Hc Hp), react_state_update_pc.
        repeat split; auto.
        -- change (pre ++ [?a; ?b; ?c; ?d]) with (pre ++ [a; b; c] ++ [d]).
           rewrite app_assoc. apply last_snoc.
        -- rewrite all_sent_app, Hpre. reflexivity.
    + cbn [prepend completion world effects].
      rewrite update_pc_pc_current, (current_pc_live_update _ _ _ _ Hc Hp),
        (current_pc_update _ _ _ _ Hc Hp), react_state_update_pc.
      repeat split; auto.
      * change (pre ++ [?a; ?b; ?c]) with (pre ++ [a; b] ++ [c]).
        rewrite app_assoc. apply last_snoc.
      * rewrite all_sent_app, Hpre. reflexivity.
  - cbn [prepend completion world effects].
    unfold current_pc_live. rewrite Hcur.
    repeat split; auto.
    + change (pre ++ [?a; ?b]) with (pre ++ [a] ++ [b]).
      rewrite app_assoc. apply last_snoc.
    + rewrite all_sent_app, Hpre. reflexivity.
Qed.

Lemma handleOffer_failure_keeps_handle_witness :
  let r := handleOffer (mkClosure "room1" None) "v=0 offer" "room1" answer_fails joined in
  completion r = Normal tt
  ∧ last (effects r) = Some (ConsoleError "Error handling offer:")
  ∧ all_sent (effects r) = []
  ∧ pc_current (world r) = Some (length (pcs joined))
  ∧ current_pc_live (world r) = true
  ∧ (pc_localDescription <$> current_pc (world r)) = Some None
  ∧ (pc_remoteDescription <$> current_pc (world r))
    = Some (if o_setRemoteDescription answer_fails
            then Some (mkDesc SdpOffer "v=0 offer") else None)
  ∧ react_state (world r) = react_state joined.
Proof.
  apply (handleOffer_failure_keeps_handle (mkClosure "room1" None) "v=0 offer"
           "room1" answer_fails joined).
  right. left. reflexivity.
Defined.

(** ** Frames that end the call *)

Lemma all_sent_hang_up c w : all_sent (hang_up_effects c w) = [].
Proof.
  pose proof (emits_handleHangUp c w) as H. rewrite handleHangUp_eq in H.
  apply all_sent_none, H.
Qed.

Lemma dispatch_error c m o w :
  msg_type m = "error" →
  dispatch_message c m o w =
  mkOutcome (Normal tt) (hung_up c w)
    (error_alert (payload_message m) ++ hang_up_effects c w).
Proof.
  intros Hm. unfold dispatch_message. rewrite Hm. cbn [String.eqb Ascii.eqb Bool.eqb].
  unfold error_alert, truthy.
  destruct (payload_message m) as [msg|]; [destruct (String.eqb msg "")|];
    cbn [negb]; run_m; rewrite handleHangUp_eq; reflexivity.
Qed.

Lemma dispatch_peer_left c m o w :
  msg_type m = "peer_left" →
  dispatch_message c m o w =
  mkOutcome (Normal tt) (hung_up c w)
    (Alert "The other user has left the room." :: hang_up_effects c w).
Proof.
  intros Hm. unfold dispatch_message. rewrite Hm. cbn [String.eqb Ascii.eqb Bool.eqb].
  unfold handlePeerLeft. run_m. rewrite handleHangUp_eq. reflexivity.
Qed.

(** X5.  An [error] frame always ends the call.  The handler writes its
    trace line, alerts the message carried by the frame when that message
    is present and non-empty (and alerts nothing otherwise), and then hangs
    up from the render behind the socket: the session ends idle and nothing
    is sent. *)
Theorem error_frame_alerts_and_hangs_up
    (w : World) (s : WebSocket) (o : Oracle) (m : WebSocketMessage) :
  ws_current w = Some s → msg_type m = "error" →
  let r := handle_event (SocketMessage (Decoded m) o) w in
  r = mkOutcome (Normal tt) (hung_up (ws_closure s) w)
        (ConsoleLog "Received message: error"
           :: error_alert (payload_message m) ++ hang_up_effects (ws_closure s) w)
  ∧ is_idle (world r) = true
  ∧ all_sent (effects r) = [].
Proof.
  intros Hs Hm. cbv zeta.
  assert (Hr : handle_event (SocketMessage (Decoded m) o) w =
               mkOutcome (Normal tt) (hung_up (ws_closure s) w)
                 (ConsoleLog "Received message: error"
                    :: error_alert (payload_message m)
                         ++ hang_up_effects (ws_closure s) w)).
  { unfold handle_event, try_catch, dispatch. rewrite Hs. unfold onmessage.
    run_m. rewrite (dispatch_error _ _ _ _ Hm), Hm. reflexivity. }
  rewrite Hr. cbn [world effects]. repeat split.
  - apply hung_up_idle.
  - cbn [all_sent]. rewrite all_sent_app, all_sent_hang_up.
    unfold error_alert. destruct (payload_message m) as [msg|];
      [destruct (String.eqb msg "")|]; reflexivity.
Qed.

Lemma error_frame_alerts_and_hangs_up_witness :
  let s := mkWs false (mkClosure "room1" None) in
  let m := msg_error (Some "room full") in
  let r := handle_event (SocketMessage (Decoded m) all_ok) offering in
  r = mkOutcome (Normal tt) (hung_up (ws_closure s) offering)
        (ConsoleLog "Received message: error"
           :: error_alert (payload_message m) ++ hang_up_effects (ws_closure s) offering)
  ∧ is_idle (world r) = true
  ∧ all_sent (effects r) = [].
Proof.
  apply (error_frame_alerts_and_hangs_up offering
           (mkWs false (mkClosure "room1" None)) all_ok
           (msg_error (Some "room full")));
    reflexivity.
Defined.

(** X6.  A [peer_left] frame alerts "The other user has left the room."
    and then hangs up from the render behind the socket, whatever payload
    the frame carries: the session ends idle and nothing is sent. *)
Theorem peer_left_alerts_and_hangs_up
    (w : World) (s : WebSocket) (o : Oracle) (m : WebSocketMessage) :
  ws_current w = Some s → msg_type m = "peer_left" →
  let r := handle_event (SocketMessage (Decoded m) o) w in
  r = mkOutcome (Normal tt) (hung_up (ws_closure s) w)
        (ConsoleLog "Received message: peer_left"
           :: Alert "The other user has left the room."
           :: hang_up_effects (ws_closure s) w)
  ∧ is_idle (world r) = true
  ∧ all_sent (effects r) = [].
Proof.
  intros Hs Hm. cbv zeta.
  assert (Hr : handle_event (SocketMessage (Decoded m) o) w =
               mkOutcome (Normal tt) (hung_up (ws_closure s) w)
                 (ConsoleLog "Received message: peer_left"
                    :: Alert "The other user has left the room."
                    :: hang_up_effects (ws_closure s) w)).
  { unfold handle_event, try_catch, dispatch. rewrite Hs. unfold onmessage.
    run_m. rewrite (dispatch_peer_left _ _ _ _ Hm), Hm. reflexivity. }
  rewrite Hr. cbn [world effects]. repeat split.
  - apply hung_up_idle.
  - cbn [all_sent]. apply all_sent_hang_up.
Qed.

Lemma peer_left_alerts_and_hangs_up_witness :
  let s := mkWs false (mkClosure "room1" None) in
  let m := mkMsg "peer_left" None in
  let r := handle_event (SocketMessage (Decoded m) all_ok) offering in
  r = mkOutcome (Normal tt) (hung_up (ws_closure s) offering)
        (ConsoleLog "Received message: peer_left"
           :: Alert "The other user has left the room."
           :: hang_up_effects (ws_closure s) offering)
  ∧ is_idle (world r) = true
  ∧ all_sent (effects r) = [].
Proof.
  apply (peer_left_alerts_and_hangs_up offering
           (mkWs false (mkClosure "room1" None)) all_ok (mkMsg "peer_left" None));
    reflexivity.
Defined.

(** ** Unmounting *)

Lemma closed_current_stopped w : stopped (closed_current w) = stopped w.
Proof.
  unfold closed_current, update_pc. destruct (pc_current w) as [h|]; [|reflexivity].
  destruct (pcs w !! h); reflexivity.
Qed.

Lemma closed_current_not_live w : current_pc_live (closed_current w) = false.
Proof.
  unfold current_pc_live, current_pc, closed_current.
  destruct (pc_current w) as [h|] eqn:Hc; [|rewrite Hc; reflexivity].
  rewrite update_pc_pc_current, Hc.
  destruct (pcs w !! h) as [p|] eqn:Hp.
  - rewrite (update_pc_lookup _ _ _ _ Hp). reflexivity.
  - unfold update_pc. rewrite Hp, Hp. reflexivity.
Qed.

(** X7.  The cleanup that runs when the component unmounts calls [close]
    on the socket and then on the peer connection, each only if its ref
    is set, and does nothing else: afterwards no connection is live behind
    [pc.current] and the socket, if any, is marked closed, while the React
    state and the media tracks are as before (no track is stopped). *)
Theorem unmount_closes_refs_only (w : World) :
  let r := handle_event Unmount w in
  completion r = Normal tt
  ∧ effects r =
      match ws_current w with Some _ => [WsClose] | None => [] end
      ++ match pc_current w with Some h => [PcClose h] | None => [] end
  ∧ current_pc_live (world r) = false
  ∧ (ws_closed <$> ws_current (world r)) = ((λ _, true) <$> ws_current w)
  ∧ react_state (world r) = react_state w
  ∧ stopped (world r) = stopped w
  ∧ track_stops (effects r) = [].
Proof.
  cbv zeta.
  assert (Hr : handle_event Unmount w =
               mkOutcome (Normal tt) (closed_current (closed_socket w))
                 (socket_close_effects w ++ close_effects w)).
  { unfold handle_event, try_catch, dispatch, cleanup.
    rewrite (bind_eq _ _ _ _ _ _ (ws_current_close_eq w)).
    rewrite pc_current_close_eq. cbn.
    unfold close_effects, closed_socket. destruct (ws_current w); reflexivity. }
  rewrite Hr. cbn [completion world effects].
  rewrite closed_current_not_live, closed_current_ws, react_state_closed_current,
    closed_current_stopped.
  unfold socket_close_effects, close_effects, closed_socket.
  destruct (ws_current w) eqn:Hws, (pc_current w); cbn; rewrite ?Hws;
    repeat split.
Qed.

(** ** Frames without the field they need *)

(** X8.  An [offer] or [answer] frame whose sdp is missing or empty, and a
    [candidate] frame without a candidate, are skipped by the guards of the
    [switch]: the session is unchanged, no connection is created, nothing
    is sent and nothing is reported; the only output is the trace line. *)
Theorem frame_without_payload_is_skipped
    (w : World) (s : WebSocket) (o : Oracle) (m : WebSocketMessage) :
  ws_current w = Some s →
  (msg_type m = "offer" ∧ truthy (payload_sdp m) = false)
  ∨ (msg_type m = "answer" ∧ truthy (payload_sdp m) = false)
  ∨ (msg_type m = "candidate" ∧ payload_candidate m = None) →
  handle_event (SocketMessage (Decoded m) o) w =
  mkOutcome (Normal tt) w [ConsoleLog ("Received message: " ++ msg_type m)].
Proof.
  intros Hs Hcase. unfold handle_event, try_catch, dispatch. rewrite Hs.
  unfold onmessage. run_m.
  assert (Hd : dispatch_message (ws_closure s) m o w = mkOutcome (Normal tt) w []).
  { unfold dispatch_message.
    destruct Hcase as [[Hm Hp]|[[Hm Hp]|[Hm Hp]]]; rewrite Hm;
      cbn [String.eqb Ascii.eqb Bool.eqb].
    - destruct (payload_sdp m) as [sdp|]; [rewrite Hp|]; reflexivity.
    - destruct (payload_sdp m) as [sdp|]; [rewrite Hp|]; reflexivity.
    - rewrite Hp. reflexivity. }
  rewrite Hd. reflexivity.
Qed.

Lemma frame_without_payload_is_skipped_witness :
  handle_event (SocketMessage (Decoded (msg_offer "")) all_ok) joined =
  mkOutcome (Normal tt) joined
    [ConsoleLog ("Received message: " ++ msg_type (msg_offer ""))].
Proof.
  apply (frame_without_payload_is_skipped joined
           (mkWs false (mkClosure "room1" None)) all_ok (msg_offer ""));
    [reflexivity|left; split; reflexivity].
Defined.

(** ** What an answer touches *)

Lemma negotiation_offering w :
  negotiation w = NOffering →
  ∃ h p, pc_current w = Some h ∧ pcs w !! h = Some p ∧ pc_closed p = false
         ∧ is_Some (pc_localDescription p) ∧ pc_remoteDescription p = None.
Proof.
  unfold negotiation, current_pc.
  destruct (pc_current w) as [h|] eqn:Hc; [|discriminate].
  destruct (pcs w !! h) as [p|] eqn:Hp; [|discriminate].
  destruct (pc_closed p) eqn:Hcl; [discriminate|].
  destruct (pc_localDescription p) eqn:Hl, (pc_remoteDescription p) eqn:Hr;
    try discriminate.
  intros _. exists h, p. rewrite Hl. eauto.
Qed.

(** X9.  [handleAnswer] only ever sets a remote description.  It always
    returns normally, sends nothing, leaves the React state, both refs and
    the number and liveness of the connections as they were.  When the
    session is offering and the browser accepts the answer, the connection
    in [pc.current] gets the answer as remote description and the session
    is stable. *)
Theorem handleAnswer_only_sets_remote (sdp : string) (o : Oracle) (w : World) :
  let r := handleAnswer sdp o w in
  completion r = Normal tt
  ∧ all_sent (effects r) = []
  ∧ react_state (world r) = react_state w
  ∧ pc_current (world r) = pc_current w
  ∧ ws_current (world r) = ws_current w
  ∧ live_handles (world r) = live_handles w
  ∧ length (pcs (world r)) = length (pcs w)
  ∧ (negotiation w = NOffering → o_setRemoteDescription o = true →
     negotiation (world r) = NStable
     ∧ (pc_remoteDescription <$> current_pc (world r))
       = Some (Some (mkDesc SdpAnswer sdp))).
Proof.
  cbv zeta. split; [|split].
  - apply returns_unit. returns_steps.
  - apply all_sent_none, emits_handleAnswer.
  - rewrite handleAnswer_eq.
    destruct (pc_current w) as [h|] eqn:Hc.
    + destruct (o_setRemoteDescription o) eqn:Ho; cbn [world].
      * rewrite react_state_update_pc, update_pc_pc_current, update_pc_ws,
          update_pc_length, live_update_flag by (intros; reflexivity).
        repeat split; auto.
        all: match goal with
             | Hn : negotiation _ = NOffering |- _ =>
                 apply negotiation_offering in Hn
                   as (h' & p & Hc' & Hp & Hcl & [d Hl] & Hr)
             end;
             rewrite Hc in Hc'; injection Hc' as <-.
        -- unfold negotiation. rewrite (current_pc_update _ _ _ _ Hc Hp).
           cbn. rewrite Hcl, Hl. reflexivity.
        -- rewrite (current_pc_update _ _ _ _ Hc Hp). reflexivity.
      * repeat split; auto. all: discriminate.
    + repeat split; auto.
      all: match goal with
           | Hn : negotiation _ = NOffering |- _ =>
               apply negotiation_offering in Hn as (h' & p & Hc' & _)
           end; rewrite Hc in Hc'; discriminate Hc'.
Qed.

Lemma handleAnswer_only_sets_remote_witness :
  let r := handleAnswer "v=0 answer" all_ok offering in
  completion r = Normal tt
  ∧ all_sent (effects r) = []
  ∧ react_state (world r) = react_state offering
  ∧ pc_current (world r) = pc_current offering
  ∧ ws_current (world r) = ws_current offering
  ∧ live_handles (world r) = live_handles offering
  ∧ length (pcs (world r)) = length (pcs offering)
  ∧ (negotiation offering = NOffering → o_setRemoteDescription all_ok = true →
     negotiation (world r) = NStable
     ∧ (pc_remoteDescription <$> current_pc (world r))
       = Some (Some (mkDesc SdpAnswer "v=0 answer"))).
Proof. apply (handleAnswer_only_sets_remote "v=0 answer" all_ok offering). Defined.

(** ** Candidates in a row *)

Lemma event_candidate w s o m h :
  ws_current w = Some s → pc_current w = Some h →
  msg_type m = "candidate" → o_addIceCandidate o = true →
  handle_event (SocketMessage (Decoded m) o) w =
  mkOutcome (Normal tt)
    match payload_candidate m with
    | Some c => update_pc h (pc_add_candidate c) w
    | None => w
    end
    (ConsoleLog "Received message: candidate"
       :: match payload_candidate m with
          | Some c => [PcAddIceCandidate h c]
          | None => []
          end).
Proof.
  intros Hs Hc Hm Ho. unfold handle_event, try_catch, dispatch. rewrite Hs.
  unfold onmessage. run_m.
  assert (Hd : dispatch_message (ws_closure s) m o w =
               match payload_candidate m with
               | Some c => handleCandidate c o w
               | None => mkOutcome (Normal tt) w []
               end).
  { unfold dispatch_message. rewrite Hm. cbn [String.eqb Ascii.eqb Bool.eqb].
    destruct (payload_candidate m); reflexivity. }
  rewrite Hd, Hm. destruct (payload_candidate m) as [c|]; [|reflexivity].
  rewrite handleCandidate_eq, Hc, Ho. reflexivity.
Qed.

Lemma carried_candidates_cons m o fs :
  carried_candidates ((m, o) :: fs) =
  match payload_candidate m with
  | Some c => c :: carried_candidates fs
  | None => carried_candidates fs
  end.
Proof. reflexivity. Qed.

(** X10.  Candidate frames that arrive one after another while a
    connection is in [pc.current], whatever else their payloads carry and
    each accepted by the browser, hand their candidates to
    [addIceCandidate] of that connection in arrival order, and the
    candidates are added after the ones the connection already had; a frame
    without a candidate contributes nothing.  Nothing else of the
    connection changes, no connection is created and nothing is sent. *)
Theorem candidates_applied_in_arrival_order
    (fs : list (WebSocketMessage * Oracle)) (w : World) (s : WebSocket)
    (h : nat) (p : PeerConnection) :
  ws_current w = Some s → pc_current w = Some h → pcs w !! h = Some p →
  Forall (λ mo, msg_type mo.1 = "candidate" ∧ o_addIceCandidate mo.2 = true) fs →
  let r := run (frame_events fs) w in
  current_pc (world r) =
    Some (mkPc (pc_closed p) (pc_roomId p) (pc_tracks p) (pc_localDescription p)
               (pc_remoteDescription p) (pc_candidates p ++ carried_candidates fs))
  ∧ ice_calls (effects r) = map (λ c, (h, c)) (carried_candidates fs)
  ∧ all_sent (effects r) = []
  ∧ length (pcs (world r)) = length (pcs w).
Proof.
  intros Hs Hc Hp Hfs. cbv zeta. revert w p Hs Hc Hp.
  induction Hfs as [|[m o] fs [Hm Ho] _ IH]; intros w p Hs Hc Hp.
  - cbn. rewrite app_nil_r. unfold current_pc. rewrite Hc, Hp.
    destruct p; auto.
  - cbn [frame_events map fst snd]. rewrite run_cons.
    cbn [fst snd] in Hm, Ho.
    rewrite (event_candidate _ _ _ _ _ Hs Hc Hm Ho). cbn [world effects prepend].
    rewrite carried_candidates_cons. unfold frame_events in IH.
    destruct (payload_candidate m) as [c|].
    + destruct (IH (update_pc h (pc_add_candidate c) w) (pc_add_candidate c p))
        as (IH1 & IH2 & IH3 & IH4).
      * rewrite update_pc_ws. exact Hs.
      * rewrite update_pc_pc_current. exact Hc.
      * apply update_pc_lookup, Hp.
      * rewrite IH1, IH4, update_pc_length.
        cbn [ice_calls all_sent app map]. rewrite IH2, IH3.
        cbn [pc_add_candidate pc_closed pc_roomId pc_tracks pc_localDescription
             pc_remoteDescription pc_candidates].
        rewrite <- app_assoc. auto.
    + destruct (IH w p Hs Hc Hp) as (IH1 & IH2 & IH3 & IH4).
      rewrite IH1, IH4. cbn [ice_calls all_sent app]. rewrite IH2, IH3. auto.
Qed.

Lemma candidates_applied_in_arrival_order_witness :
  let p := mkPc false "room1" [] (Some (mkDesc SdpOffer "v=0 offer"))
             (Some (mkDesc SdpAnswer "v=0 answer")) [] in
  let fs := [(relayed_candidate "room1" cand1, all_ok);
             (mkMsg "candidate" (Some (mkIn (Some "room1") None None None)), all_ok);
             (relayed_candidate "room1" cand2, all_ok)] in
  let r := run (frame_events fs) answered in
  current_pc (world r) =
    Some (mkPc (pc_closed p) (pc_roomId p) (pc_tracks p) (pc_localDescription p)
               (pc_remoteDescription p) (pc_candidates p ++ carried_candidates fs))
  ∧ ice_calls (effects r) = map (λ c, (0, c)) (carried_candidates fs)
  ∧ all_sent (effects r) = []
  ∧ length (pcs (world r)) = length (pcs answered).
Proof.
  apply (candidates_applied_in_arrival_order
           [(relayed_candidate "room1" cand1, all_ok);
            (mkMsg "candidate" (Some (mkIn (Some "room1") None None None)), all_ok);
            (relayed_candidate "room1" cand2, all_ok)]
           answered (mkWs false (mkClosure "room1" None)) 0
           (mkPc false "room1" [] (Some (mkDesc SdpOffer "v=0 offer"))
              (Some (mkDesc SdpAnswer "v=0 answer")) []));
    try reflexivity.
  repeat constructor.
Defined.

(** ** After a hang-up *)

Lemma closed_current_pc_current w : pc_current (closed_current w) = pc_current w.
Proof.
  unfold closed_current. destruct (pc_current w) eqn:Hc; [|exact Hc].
  rewrite update_pc_pc_current. exact Hc.
Qed.

Lemma hung_up_pc_current c w : pc_current (hung_up c w) = pc_current w.
Proof.
  unfold hung_up. cbn. rewrite closed_current_pc_current. unfold closed_socket.
  cbn. destruct (ws_current w); reflexivity.
Qed.

Lemma hung_up_ws c w :
  ws_current (hung_up c w)
  = (λ s, mkWs true (ws_closure s)) <$> ws_current w.
Proof.
  unfold hung_up. cbn. rewrite closed_current_ws. unfold closed_socket.
  cbn. destruct (ws_current w) eqn:Hws; cbn; rewrite ?Hws; reflexivity.
Qed.

(** X11.  A hang-up closes the peer connection and the socket but does not
    clear the refs: [pc.current] still holds the same, now closed,
    connection and [ws.current] the same, now closed, socket with its
    handlers.  So a candidate that arrives after the hang-up is still
    handed to [addIceCandidate] of the closed connection. *)
Theorem hangUp_keeps_refs
    (c : Closure) (w : World) (h : nat) (cand : Candidate) (o : Oracle) :
  pc_current w = Some h →
  let w' := world (handleHangUp c w) in
  pc_current w' = Some h
  ∧ current_pc_live w' = false
  ∧ ws_current w' = (λ s, mkWs true (ws_closure s)) <$> ws_current w
  ∧ head (effects (handleCandidate cand o w')) = Some (PcAddIceCandidate h cand).
Proof.
  intros Hc. cbv zeta. rewrite handleHangUp_eq. cbn [world].
  pose proof (hung_up_idle c w) as Hidle.
  unfold is_idle in Hidle. apply andb_prop in Hidle as [_ Hlive].
  apply negb_true_iff in Hlive.
  rewrite hung_up_pc_current, hung_up_ws, handleCandidate_eq, hung_up_pc_current, Hc.
  repeat split; auto. destruct (o_addIceCandidate o); reflexivity.
Qed.

Lemma hangUp_keeps_refs_witness :
  let w' := world (handleHangUp (current_render offering) offering) in
  pc_current w' = Some 0
  ∧ current_pc_live w' = false
  ∧ ws_current w' = (λ s, mkWs true (ws_closure s)) <$> ws_current offering
  ∧ head (effects (handleCandidate cand1 all_ok w')) = Some (PcAddIceCandidate 0 cand1).
Proof.
  apply (hangUp_keeps_refs (current_render offering) offering 0 cand1 all_ok).
  reflexivity.
Defined.

(** X12.  After a hang-up the room id is empty, so pressing Join again
    without typing a room id only raises the alert "Please enter a Room
    ID." and leaves the session as the hang-up left it. *)
Theorem rejoin_after_hangUp_asks_for_room (c : Closure) (w : World) (o : Oracle) :
  let w' := world (handleHangUp c w) in
  handle_event (ClickJoin o) w' =
  mkOutcome (Normal tt) w' [Alert "Please enter a Room ID."].
Proof.
  cbv zeta. rewrite handleHangUp_eq. cbn [world].
  unfold handle_event, try_catch, dispatch.
  change (inCall (hung_up c w)) with false. cbn match.
  unfold handleJoinRoom.
  change (cl_roomId (current_render (hung_up c w))) with "".
  reflexivity.
Qed.

(** ** A fresh connection *)

Lemma attached_app es1 es2 : attached (es1 ++ es2) = attached es1 ++ attached es2.
Proof.
  induction es1 as [|e es1 IH]; [reflexivity|].
  destruct e; cbn; rewrite ?IH; reflexivity.
Qed.

Lemma attached_add_tracks n ts :
  attached (map (PcAddTrack n) ts) = map (λ t, (n, t)) ts.
Proof. induction ts as [|t ts IH]; cbn; [|rewrite IH]; reflexivity. Qed.

(** X13.  [createPeerConnection] always returns normally and leaves in
    [pc.current] a new, open connection for the given room id with no
    description and no candidate, holding exactly the tracks of the local
    stream its render holds, in [getTracks] order, each attached once (and
    none when that render holds no stream).  The connections that existed
    are all kept, the previous current one now closed; the React state, the
    socket and the media tracks are untouched. *)
Theorem createPeerConnection_installs_fresh (c : Closure) (rid : string) (w : World) :
  let r := createPeerConnection c rid w in
  completion r = Normal tt
  ∧ current_pc (world r) = Some (mkPc false rid (stream_tracks c) None None [])
  ∧ attached (effects r) = map (λ t, (length (pcs w), t)) (stream_tracks c)
  ∧ pcs (world r)
    = pcs (closed_current w) ++ [mkPc false rid (stream_tracks c) None None []]
  ∧ current_pc_live (closed_current w) = false
  ∧ react_state (world r) = react_state w
  ∧ ws_current (world r) = ws_current w
  ∧ stopped (world r) = stopped w.
Proof.
  cbv zeta. rewrite createPeerConnection_eq. cbn [completion world effects].
  rewrite created_current_pc, react_state_created, created_ws, closed_current_not_live.
  rewrite attached_app. cbn [attached]. rewrite attached_add_tracks.
  repeat split.
  - unfold close_effects. destruct (pc_current w); reflexivity.
  - unfold created. cbn. apply closed_current_stopped.
Qed.

(** ** The local stream and the renders that hold it *)

(** As [preserve_steps], with a first choice for the handlers that are
    taken as a whole. *)
Ltac preserve_steps_with special :=
  repeat first
    [ special
    | match goal with
      | |- preserves _ (bind _ _) => apply preserves_bind; [|intros ?]
      | |- preserves _ (try_catch _ _) => apply preserves_try_catch; [|intros ?]
      | |- preserves _ (ret _) => apply preserves_ret
      | |- preserves _ (throw _) => apply preserves_throw
      | |- preserves _ (emit _) => apply preserves_emit
      | |- preserves _ (gets _) => apply preserves_gets
      | |- preserves _ (forEach _ _) => apply preserves_forEach; intros ?
      | |- preserves _ (match ?x with _ => _ end) => destruct x
      | |- preserves _ (modify _) => apply preserves_modify; intros ? ?
      | |- preserves _ (?f _ _ _ _) => unfold f
      | |- preserves _ (?f _ _ _) => unfold f
      | |- preserves _ (?f _ _) => unfold f
      | |- preserves _ (?f _) => unfold f
      | |- preserves _ ?f => unfold f
      end ].

Ltac emits_steps_with special :=
  repeat first
    [ special
    | match goal with
      | |- emits_only _ (bind _ _) => apply emits_bind; [|intros ?]
      | |- emits_only _ (try_catch _ _) => apply emits_try_catch; [|intros ?]
      | |- emits_only _ (ret _) => apply emits_ret
      | |- emits_only _ (throw _) => apply emits_throw
      | |- emits_only _ (gets _) => apply emits_gets
      | |- emits_only _ (modify _) => apply emits_modify
      | |- emits_only _ (emit _) => apply emits_emit; exact I
      | |- emits_only _ (forEach _ _) => apply emits_forEach; intros ?
      | |- emits_only _ (match ?x with _ => _ end) => destruct x
      | |- emits_only _ (?f _ _ _ _) => unfold f
      | |- emits_only _ (?f _ _ _) => unfold f
      | |- emits_only _ (?f _ _) => unfold f
      | |- emits_only _ (?f _) => unfold f
      | |- emits_only _ ?f => unfold f
      end ].

Lemma stream_iff_update_pc h f w :
  stream_iff_in_call w → stream_iff_in_call (update_pc h f w).
Proof. unfold stream_iff_in_call, update_pc. destruct (pcs w !! h); auto. Qed.

Lemma stream_iff_handleHangUp c : preserves stream_iff_in_call (handleHangUp c).
Proof. intros w _. rewrite handleHangUp_eq. reflexivity. Qed.

Lemma stream_iff_handleJoinRoom c o : preserves stream_iff_in_call (handleJoinRoom c o).
Proof.
  intros w Hw. destruct (String.eqb_spec (cl_roomId c) "") as [Hc|Hc].
  - unfold handleJoinRoom. rewrite Hc. exact Hw.
  - rewrite (handleJoinRoom_eq _ _ _ Hc).
    destruct (o_getUserMedia o); [reflexivity|exact Hw].
Qed.

Ltac stream_iff_step :=
  first [ apply stream_iff_update_pc; assumption
        | unfold stream_iff_in_call in *; cbn; assumption ].

Lemma stream_iff_dispatch e : preserves stream_iff_in_call (dispatch e).
Proof.
  intros w Hw. unfold dispatch.
  destruct e; repeat match goal with
                     | |- context [match ?x with _ => _ end] => destruct x
                     end;
    try exact Hw;
    match goal with
    | |- stream_iff_in_call (world (?m w)) =>
        cut (preserves stream_iff_in_call m); [intros Hp; exact (Hp w Hw)|]
    end;
    preserve_steps_with
      ltac:(idtac; match goal with
            | |- preserves _ (handleHangUp _) => apply stream_iff_handleHangUp
            | |- preserves _ (handleJoinRoom _ _) => apply stream_iff_handleJoinRoom
            end);
    stream_iff_step.
Qed.

Lemma socket_render_update_pc h f w :
  socket_render_has_no_stream w → socket_render_has_no_stream (update_pc h f w).
Proof. unfold socket_render_has_no_stream. rewrite update_pc_ws. auto. Qed.

Lemma socket_render_ws_close : preserves socket_render_has_no_stream ws_current_close.
Proof.
  intros w Hw. rewrite ws_current_close_eq. cbn [world].
  unfold socket_render_has_no_stream, closed_socket in *.
  destruct (ws_current w) eqn:Hws; cbn; [exact Hw|rewrite Hws; exact I].
Qed.

Ltac socket_render_step :=
  first [ apply socket_render_update_pc; assumption
        | unfold socket_render_has_no_stream in *; cbn; assumption ].

Lemma socket_render_handleJoinRoom c o :
  cl_localStream c = None →
  preserves socket_render_has_no_stream (handleJoinRoom c o).
Proof. intros Hc. preserve_steps; socket_render_step. Qed.

Lemma socket_render_dispatch e w :
  stream_iff_in_call w → socket_render_has_no_stream w →
  socket_render_has_no_stream (world (dispatch e w)).
Proof.
  intros Hi Hw. unfold dispatch.
  destruct e as [s|o| | |f o|h c|h s|].
  - destruct (inCall w); exact Hw.
  - destruct (inCall w) eqn:Hin; [exact Hw|].
    apply socket_render_handleJoinRoom; [|exact Hw].
    unfold stream_iff_in_call in Hi. rewrite Hin in Hi. cbn.
    destruct (localStream w); [discriminate Hi|reflexivity].
  - destruct (inCall w); [|exact Hw].
    cut (preserves socket_render_has_no_stream (handleHangUp (current_render w)));
      [intros Hp; exact (Hp w Hw)|].
    preserve_steps_with
      ltac:(idtac; match goal with
            | |- preserves _ ws_current_close => apply socket_render_ws_close
            end);
      socket_render_step.
  - destruct (ws_current w) as [s|] eqn:Hws; [|exact Hw].
    destruct (ws_closed s); [exact Hw|].
    cut (preserves socket_render_has_no_stream (onopen (ws_closure s)));
      [intros Hp; exact (Hp w Hw)|].
    preserve_steps; socket_render_step.
  - destruct (ws_current w) as [s|] eqn:Hws; [|exact Hw].
    cut (preserves socket_render_has_no_stream (onmessage (ws_closure s) f o));
      [intros Hp; exact (Hp w Hw)|].
    preserve_steps_with
      ltac:(idtac; match goal with
            | |- preserves _ ws_current_close => apply socket_render_ws_close
            end);
      socket_render_step.
  - destruct (pcs w !! h) as [p|]; [|exact Hw].
    destruct (pc_closed p); [exact Hw|].
    cut (preserves socket_render_has_no_stream (onicecandidate (pc_roomId p) c));
      [intros Hp; exact (Hp w Hw)|].
    preserve_steps; socket_render_step.
  - destruct (pcs w !! h) as [p|]; [|exact Hw].
    destruct (pc_closed p); exact Hw.
  - cut (preserves socket_render_has_no_stream cleanup);
      [intros Hp; exact (Hp w Hw)|].
    preserve_steps_with
      ltac:(idtac; match goal with
            | |- preserves _ ws_current_close => apply socket_render_ws_close
            end);
      socket_render_step.
Qed.

Lemma no_tracks_update_pc h f w :
  (∀ p, pc_tracks (f p) = pc_tracks p) →
  no_tracks w → no_tracks (update_pc h f w).
Proof.
  intros Hf Hw. unfold no_tracks, update_pc in *.
  destruct (pcs w !! h) as [p|] eqn:Hp; [|exact Hw].
  cbn. apply Forall_insert; [exact Hw|].
  rewrite Hf. exact (proj1 (Forall_lookup _ _) Hw h p Hp).
Qed.

Lemma no_tracks_append rid n w :
  no_tracks w →
  no_tracks (set_pc_current (Some n) (set_pcs (pcs w ++ [pc_fresh rid]) w)).
Proof.
  intros Hw. unfold no_tracks in *. cbn. apply Forall_app. split; [exact Hw|].
  constructor; [reflexivity|constructor].
Qed.

Ltac no_tracks_step :=
  first [ apply no_tracks_append; assumption
        | apply no_tracks_update_pc; [intros []; reflexivity|assumption]
        | unfold no_tracks in *; cbn; assumption ].

Lemma no_tracks_createPeerConnection c rid :
  cl_localStream c = None → preserves no_tracks (createPeerConnection c rid).
Proof.
  intros Hc. unfold createPeerConnection. rewrite Hc.
  preserve_steps; no_tracks_step.
Qed.

Lemma no_tracks_onmessage c f o :
  cl_localStream c = None → preserves no_tracks (onmessage c f o).
Proof.
  intros Hc.
  preserve_steps_with
    ltac:(idtac; match goal with
          | |- preserves _ (createPeerConnection _ _) =>
              apply no_tracks_createPeerConnection; exact Hc
          end);
    no_tracks_step.
Qed.

Lemma no_tracks_dispatch e w :
  socket_render_has_no_stream w → no_tracks w → no_tracks (world (dispatch e w)).
Proof.
  intros Hs Hw. unfold dispatch.
  destruct e as [s|o| | |f o|h c|h s|].
  - destruct (inCall w); exact Hw.
  - destruct (inCall w); [exact Hw|].
    cut (preserves no_tracks (handleJoinRoom (current_render w) o));
      [intros Hp; exact (Hp w Hw)|].
    preserve_steps; no_tracks_step.
  - destruct (inCall w); [|exact Hw].
    cut (preserves no_tracks (handleHangUp (current_render w)));
      [intros Hp; exact (Hp w Hw)|].
    preserve_steps; no_tracks_step.
  - destruct (ws_current w) as [s|]; [|exact Hw].
    destruct (ws_closed s); [exact Hw|].
    cut (preserves no_tracks (onopen (ws_closure s)));
      [intros Hp; exact (Hp w Hw)|].
    preserve_steps; no_tracks_step.
  - unfold socket_render_has_no_stream in Hs.
    destruct (ws_current w) as [s|]; [|exact Hw].
    exact (no_tracks_onmessage (ws_closure s) f o Hs w Hw).
  - destruct (pcs w !! h) as [p|]; [|exact Hw].
    destruct (pc_closed p); [exact Hw|].
    cut (preserves no_tracks (onicecandidate (pc_roomId p) c));
      [intros Hp; exact (Hp w Hw)|].
    preserve_steps; no_tracks_step.
  - destruct (pcs w !! h) as [p|]; [|exact Hw].
    destruct (pc_closed p); exact Hw.
  - cut (preserves no_tracks cleanup); [intros Hp; exact (Hp w Hw)|].
    preserve_steps; no_tracks_step.
Qed.

Lemma emits_createPeerConnection_no_stream P c rid :
  cl_localStream c = None →
  (∀ h, P (PcClose h)) → (∀ n, P (PcNew n)) →
  emits_only P (createPeerConnection c rid).
Proof.
  intros Hc Hclose Hnew. unfold createPeerConnection. rewrite Hc.
  unfold pc_current_close.
  repeat match goal with
  | |- emits_only _ (bind _ _) => apply emits_bind; [|intros ?]
  | |- emits_only _ (ret _) => apply emits_ret
  | |- emits_only _ (gets _) => apply emits_gets
  | |- emits_only _ (modify _) => apply emits_modify
  | |- emits_only _ (emit (PcClose _)) => apply emits_emit, Hclose
  | |- emits_only _ (emit (PcNew _)) => apply emits_emit, Hnew
  | |- emits_only _ (match ?x with _ => _ end) => destruct x
  end.
Qed.

Lemma emits_onmessage_no_addTrack c f o :
  cl_localStream c = None → emits_only not_addTrack (onmessage c f o).
Proof.
  intros Hc.
  emits_steps_with
    ltac:(idtac; match goal with
          | |- emits_only _ (createPeerConnection _ _) =>
              apply emits_createPeerConnection_no_stream;
              [exact Hc|intros ?; exact I|intros ?; exact I]
          end).
Qed.

Lemma emits_handleHangUp_no_stream c :
  cl_localStream c = None → emits_only not_trackStop (handleHangUp c).
Proof. intros Hc. unfold handleHangUp. rewrite Hc. emits_steps. Qed.

Lemma emits_onmessage_no_trackStop c f o :
  cl_localStream c = None → emits_only not_trackStop (onmessage c f o).
Proof.
  intros Hc.
  emits_steps_with
    ltac:(idtac; match goal with
          | |- emits_only _ (handleHangUp _) =>
              apply emits_handleHangUp_no_stream; exact Hc
          end).
Qed.

Lemma dispatch_no_addTrack e w :
  socket_render_has_no_stream w → Forall not_addTrack (effects (dispatch e w)).
Proof.
  intros Hs. unfold dispatch.
  destruct e as [s|o| | |f o|h c|h s|].
  - destruct (inCall w); [constructor|]. apply emits_at. emits_steps.
  - destruct (inCall w); [constructor|]. apply emits_at. emits_steps.
  - destruct (inCall w); [|constructor]. apply emits_at. emits_steps.
  - destruct (ws_current w) as [s|]; [|constructor].
    destruct (ws_closed s); [constructor|]. apply emits_at. emits_steps.
  - unfold socket_render_has_no_stream in Hs.
    destruct (ws_current w) as [s|]; [|constructor].
    apply emits_onmessage_no_addTrack, Hs.
  - destruct (pcs w !! h) as [p|]; [|constructor].
    destruct (pc_closed p); [constructor|]. apply emits_at. emits_steps.
  - destruct (pcs w !! h) as [p|]; [|constructor].
    destruct (pc_closed p); [constructor|]. apply emits_at. emits_steps.
  - apply emits_at. emits_steps.
Qed.

Lemma world_handle_event e w : world (handle_event e w) = world (dispatch e w).
Proof.
  unfold handle_event, try_catch. destruct (dispatch e w) as [[a|err] w1 es1]; reflexivity.
Qed.

Lemma session_inv_handle_event e :
  preserves (λ w, stream_iff_in_call w ∧ socket_render_has_no_stream w ∧ no_tracks w)
    (handle_event e).
Proof.
  intros w (Hi & Hs & Ht). rewrite world_handle_event. repeat split.
  - apply stream_iff_dispatch, Hi.
  - apply socket_render_dispatch; assumption.
  - apply no_tracks_dispatch; assumption.
Qed.

Lemma session_inv_run es :
  let w := world (run es initial) in
  stream_iff_in_call w ∧ socket_render_has_no_stream w ∧ no_tracks w.
Proof.
  apply (preserves_run _ session_inv_handle_event es initial).
  repeat split. constructor.
Qed.

Lemma run_no_addTrack es w :
  stream_iff_in_call w ∧ socket_render_has_no_stream w ∧ no_tracks w →
  Forall not_addTrack (effects (run es w)).
Proof.
  revert w. induction es as [|e es IH]; intros w Hw; [constructor|].
  rewrite run_cons. cbn [prepend effects]. apply Forall_app. split.
  - unfold handle_event. apply emits_try_catch_at.
    + apply dispatch_no_addTrack, Hw.
    + intros ?. emits_steps.
  - apply IH, session_inv_handle_event, Hw.
Qed.

(** X16.  In every session reached from the initial one, a local stream
    is held exactly while [inCall] is true: Join sets both and hang-up
    clears both, and nothing else touches either. *)
Theorem stream_held_exactly_in_call (es : list Event) :
  let w := world (run es initial) in
  inCall w = match localStream w with Some _ => true | None => false end.
Proof. exact (proj1 (session_inv_run es)). Qed.

(** X17.  The handlers on the socket belong to the render in which Join
    was pressed, and that render holds no local stream.  So along every
    sequence of events from the initial session [addTrack] is never called
    and no peer connection ever holds a track. *)
Theorem no_track_ever_attached (es : list Event) :
  let r := run es initial in
  attached (effects r) = []
  ∧ Forall (λ p, pc_tracks p = []) (pcs (world r))
  ∧ match ws_current (world r) with
    | Some s => cl_localStream (ws_closure s) = None
    | None => True
    end.
Proof.
  cbv zeta. destruct (session_inv_run es) as (_ & Hs & Ht).
  repeat split; [|exact Ht|exact Hs].
  apply attached_none, run_no_addTrack.
  repeat split. constructor.
Qed.

Lemma stopped_update_pc h f w : stopped (update_pc h f w) = stopped w.
Proof. unfold update_pc. destruct (pcs w !! h); reflexivity. Qed.

Ltac stopped_step :=
  first [ rewrite stopped_update_pc; assumption
        | cbn; assumption ].

Lemma stopped_handleHangUp_no_stream S c :
  cl_localStream c = None → preserves (λ w, stopped w = S) (handleHangUp c).
Proof.
  intros Hc. unfold handleHangUp. rewrite Hc. preserve_steps; stopped_step.
Qed.

Lemma stopped_onmessage_no_stream S c f o :
  cl_localStream c = None → preserves (λ w, stopped w = S) (onmessage c f o).
Proof.
  intros Hc.
  preserve_steps_with
    ltac:(idtac; match goal with
          | |- preserves _ (handleHangUp _) =>
              apply stopped_handleHangUp_no_stream; exact Hc
          end);
    stopped_step.
Qed.

(** X18.  In every session reached from the initial one, no inbound frame
    stops a media track: the hang-up that a [peer_left] or [error] frame
    triggers runs in the render behind the socket, which holds no local
    stream, so it calls [stop] on nothing and the set of stopped tracks is
    as before. *)
Theorem inbound_frames_stop_no_track (es : list Event) (f : Frame) (o : Oracle) :
  let w := world (run es initial) in
  let r := handle_event (SocketMessage f o) w in
  track_stops (effects r) = []
  ∧ stopped (world r) = stopped w.
Proof.
  cbv zeta. destruct (session_inv_run es) as (_ & Hs & _).
  set (w := world (run es initial)) in *. split.
  - apply track_stops_none. unfold handle_event. apply emits_try_catch_at.
    + unfold dispatch, socket_render_has_no_stream in *.
      destruct (ws_current w) as [s|]; [|constructor].
      apply emits_onmessage_no_trackStop, Hs.
    + intros ?. emits_steps.
  - rewrite world_handle_event. unfold dispatch, socket_render_has_no_stream in *.
    destruct (ws_current w) as [s|]; [|reflexivity].
    exact (stopped_onmessage_no_stream (stopped w) (ws_closure s) f o Hs w eq_refl).
Qed.

Lemma track_stops_app es1 es2 :
  track_stops (es1 ++ es2) = track_stops es1 ++ track_stops es2.
Proof.
  induction es1 as [|e es1 IH]; [reflexivity|].
  destruct e; cbn; rewrite ?IH; reflexivity.
Qed.

Lemma track_stops_map ts : track_stops (map TrackStop ts) = ts.
Proof. induction ts as [|t ts IH]; cbn; [|rewrite IH]; reflexivity. Qed.

(** X19.  The Hang Up button stops the local media: pressed in a call, it
    calls [stop] once on each track of the session's local stream, in
    [getTracks] order, so all of them are stopped afterwards, and the
    session ends idle. *)
Theorem button_hangUp_stops_local_tracks (w : World) (st : MediaStream) :
  inCall w = true → localStream w = Some st →
  let r := handle_event ClickHangUp w in
  track_stops (effects r) = ms_tracks st
  ∧ stopped (world r) = list_to_set (ms_tracks st) ∪ stopped w
  ∧ is_idle (world r) = true.
Proof.
  intros Hin Hst. cbv zeta.
  assert (Hr : handle_event ClickHangUp w
               = mkOutcome (Normal tt) (hung_up (current_render w) w)
                   (hang_up_effects (current_render w) w)).
  { unfold handle_event, try_catch, dispatch. rewrite Hin, handleHangUp_eq.
    reflexivity. }
  rewrite Hr. cbn [world effects]. unfold hang_up_effects.
  assert (Hts : stream_tracks (current_render w) = ms_tracks st).
  { unfold stream_tracks, current_render. cbn. rewrite Hst. reflexivity. }
  rewrite Hts, track_stops_app, track_stops_map. repeat split.
  - unfold socket_close_effects, close_effects.
    destruct (ws_current w), (pc_current w); cbn; apply app_nil_r.
  - unfold hung_up. cbn. rewrite closed_current_stopped, Hts.
    unfold closed_socket. cbn. destruct (ws_current w); reflexivity.
  - apply hung_up_idle.
Qed.

Lemma button_hangUp_stops_local_tracks_witness :
  let r := handle_event ClickHangUp offering in
  track_stops (effects r) = ms_tracks (mkStream 0 [0; 1])
  ∧ stopped (world r) = list_to_set (ms_tracks (mkStream 0 [0; 1])) ∪ stopped offering
  ∧ is_idle (world r) = true.
Proof.
  apply (button_hangUp_stops_local_tracks offering (mkStream 0 [0; 1]));
    reflexivity.
Defined.
